(** * PERT/CPM scheduling engine of pert-suite

    Shallow embedding of [apps/pert-chart/src/logic/pert.ts]:
    [calculateExpectedTime], [topologicalSort], [calculateCPM] and
    [computeCalendarDates], followed by the properties of the
    specification that concern them.

    Numbers.  The engine is embedded twice.  In the first embedding a
    JavaScript [number] is an exact rational ([Q]); the one infinite value
    the code itself introduces, the initial accumulator [Infinity] of the
    backward pass, is the type [number] below, which the late fields of a
    node carry.  This embedding serves the properties that rest on what
    the code assigns and on the order of [Math.max] and [Math.min] alone.
    The second embedding, module [Binary64], is the same code over IEEE 754
    binary64 numbers (the primitive floats of the kernel) with their
    rounding, signed zeros, infinities and [NaN]: it serves the properties
    on which rounding bears.

    Maps.  A JavaScript [Map] keeps its keys in insertion order and
    [Array.from(m.values())] lists the values in that order; it is
    modelled by an association list with that discipline ([JSMap]).

    Exceptions.  Dereferencing [undefined] throws a [TypeError]; the
    functions that can do so return a [result]. *)

From Stdlib Require Import List String Ascii Bool Arith ZArith QArith Qminmax Qabs Qround.
From Stdlib Require Import Lia Lqa PrimFloat.
Import ListNotations.

Local Open Scope string_scope.
Local Open Scope Q_scope.
Local Open Scope list_scope.

(** ** Numbers *)

(** A finite number, or the [Infinity] the backward pass starts from. *)
Inductive number : Type :=
| Num (q : Q)
| Infinity.

(** [Math.min] on a possibly infinite accumulator. *)
Definition number_min (a b : number) : number :=
  match a, b with
  | Infinity, _ => b
  | _, Infinity => a
  | Num x, Num y => Num (Qmin x y)
  end.

(** [a - q] for a finite [q]. *)
Definition number_sub (a : number) (q : Q) : number :=
  match a with
  | Num x => Num (x - q)
  | Infinity => Infinity
  end.

Definition Qltb (x y : Q) : bool :=
  match x ?= y with Lt => true | _ => false end.

(** [Math.abs(a) < q]. *)
Definition number_abs_lt (a : number) (q : Q) : bool :=
  match a with
  | Num x => Qltb (Qabs x) q
  | Infinity => false
  end.

(** Equality and order of numbers up to the value of the rationals. *)
Definition number_eq (a b : number) : Prop :=
  match a, b with
  | Num x, Num y => x == y
  | Infinity, Infinity => True
  | _, _ => False
  end.

Definition number_le (a b : number) : Prop :=
  match a, b with
  | Num x, Num y => x <= y
  | _, Infinity => True
  | Infinity, Num _ => False
  end.

(** ** Exceptions *)

Inductive exn : Type := TypeError | RangeError.

Inductive result (A : Type) : Type :=
| Ok (a : A)
| Throw (e : exn).
Arguments Ok {A} a.
Arguments Throw {A} e.

Definition bind {A B : Type} (r : result A) (k : A -> result B) : result B :=
  match r with
  | Ok a => k a
  | Throw e => Throw e
  end.

(** ** Insertion-ordered maps with string keys *)

Module JSMap.
Section Ops.
Context {V : Type}.

Definition t : Type := list (string * V).

Definition empty : t := [].

Fixpoint get (m : t) (k : string) : option V :=
  match m with
  | [] => None
  | (k', v) :: m' => if String.eqb k' k then Some v else get m' k
  end.

(** [m.set(k, v)]: an existing key keeps its place, a new one goes last. *)
Fixpoint set (m : t) (k : string) (v : V) : t :=
  match m with
  | [] => [(k, v)]
  | (k', v') :: m' =>
      if String.eqb k' k then (k, v) :: m' else (k', v') :: set m' k v
  end.

Definition has (m : t) (k : string) : bool :=
  match get m k with Some _ => true | None => false end.

Definition keys (m : t) : list string := map fst m.
Definition values (m : t) : list V := map snd m.
End Ops.
Arguments t : clear implicits.
End JSMap.

(** ** Sets of strings ([Set<string>]) *)

Definition set_has (s : list string) (x : string) : bool :=
  existsb (String.eqb x) s.
Definition set_add (s : list string) (x : string) : list string :=
  if set_has s x then s else x :: s.
Definition set_delete (s : list string) (x : string) : list string :=
  filter (fun y => negb (String.eqb x y)) s.

(** ** Tasks and nodes *)

Inductive TimeUnit : Type := days | hours.

Record PertTask : Type := {
  id : string;
  name : string;
  optimistic : Q;
  likely : Q;
  pessimistic : Q;
  dependencies : list string;
  category : option string;
  startDate : option string;
  timeUnit : option TimeUnit
}.

(** [PertNode extends PertTask]: the fields of the task ([...task]) and
    the computed ones. *)
Record PertNode : Type := {
  task : PertTask;
  duration : Q;
  earlyStart : Q;
  earlyFinish : Q;
  lateStart : number;
  lateFinish : number;
  slack : number;
  isCritical : bool
}.

Definition node_id (n : PertNode) : string := id (task n).
Definition node_deps (n : PertNode) : list string := dependencies (task n).

Definition calculateExpectedTime (task : PertTask) : Q :=
  (optimistic task + 4 * likely task + pessimistic task) / 6.

(** ** Topological sort *)

Record SortState : Type := {
  visited : list string;
  temp : list string;
  order : list string
}.

(** [for (const depId of deps) if (!visit(depId)) return false]; the
    inner [option] is the fuel of [visit]. *)
Fixpoint visit_all (visit : string -> SortState -> option (bool * SortState))
    (deps : list string) (st : SortState) : option (bool * SortState) :=
  match deps with
  | [] => Some (true, st)
  | depId :: rest =>
      match visit depId st with
      | None => None
      | Some (false, st') => Some (false, st')
      | Some (true, st') => visit_all visit rest st'
      end
  end.

(** The closure [visit] of [topologicalSort].  The recursion of the
    source is on the call stack; here it is bounded by [fuel], and
    [None] means the bound was reached. *)
Fixpoint visit (fuel : nat) (taskMap : JSMap.t PertTask) (taskId : string)
    (st : SortState) : option (bool * SortState) :=
  match fuel with
  | O => None
  | S fuel' =>
      if set_has (temp st) taskId then Some (false, st)
      else if set_has (visited st) taskId then Some (true, st)
      else
        let st1 := {| visited := visited st;
                      temp := set_add (temp st) taskId;
                      order := order st |} in
        let r :=
          match JSMap.get taskMap taskId with
          | Some task => visit_all (visit fuel' taskMap) (dependencies task) st1
          | None => Some (true, st1)
          end in
        match r with
        | None => None
        | Some (false, st2) => Some (false, st2)
        | Some (true, st2) =>
            Some (true, {| visited := set_add (visited st2) taskId;
                           temp := set_delete (temp st2) taskId;
                           order := order st2 ++ [taskId] |})
        end
  end.

(** [new Map(tasks.map(t => [t.id, t]))]. *)
Definition taskMapOf (tasks : list PertTask) : JSMap.t PertTask :=
  fold_left (fun m t => JSMap.set m (id t) t) tasks JSMap.empty.

(** The loop over the tasks; [Some None] is the [return null]. *)
Fixpoint sort_loop (fuel : nat) (taskMap : JSMap.t PertTask)
    (tasks : list PertTask) (st : SortState) : option (option SortState) :=
  match tasks with
  | [] => Some (Some st)
  | task :: rest =>
      if set_has (visited st) (id task) then sort_loop fuel taskMap rest st
      else
        match visit fuel taskMap (id task) st with
        | None => None
        | Some (false, _) => Some None
        | Some (true, st') => sort_loop fuel taskMap rest st'
        end
  end.

Definition emptySort : SortState := {| visited := []; temp := []; order := [] |}.

Definition topologicalSort_fuel (fuel : nat) (tasks : list PertTask)
    : option (option (list string)) :=
  match sort_loop fuel (taskMapOf tasks) tasks emptySort with
  | None => None
  | Some None => Some None
  | Some (Some st) => Some (Some (order st))
  end.

(** The recursion never nests deeper than the number of tasks (theorem
    [topologicalSort_fuel_enough]), so this is the function of the source:
    [None] is its [null]. *)
Definition topologicalSort (tasks : list PertTask) : option (list string) :=
  match topologicalSort_fuel (S (List.length tasks)) tasks with
  | Some r => r
  | None => None
  end.

(** ** Critical path method *)

Definition initNode (task : PertTask) : PertNode :=
  {| task := task;
     duration := calculateExpectedTime task;
     earlyStart := 0;
     earlyFinish := 0;
     lateStart := Num 0;
     lateFinish := Num 0;
     slack := Num 0;
     isCritical := false |}.

Definition initNodeMap (tasks : list PertTask) : JSMap.t PertNode :=
  fold_left (fun m task => JSMap.set m (id task) (initNode task)) tasks JSMap.empty.

Definition emptySuccessors (tasks : list PertTask) : JSMap.t (list string) :=
  fold_left (fun m t => JSMap.set m (id t) []) tasks JSMap.empty.

(** [const succs = successorsMap.get(depId); if (succs) succs.push(task.id)]. *)
Definition pushSuccessor (taskId : string) (m : JSMap.t (list string))
    (depId : string) : JSMap.t (list string) :=
  match JSMap.get m depId with
  | Some succs => JSMap.set m depId (succs ++ [taskId])
  | None => m
  end.

Definition successorsMapOf (tasks : list PertTask) : JSMap.t (list string) :=
  fold_left
    (fun m task => fold_left (pushSuccessor (id task)) (dependencies task) m)
    tasks (emptySuccessors tasks).

Definition maxPredecessorEF (nodeMap : JSMap.t PertNode) (deps : list string) : Q :=
  fold_left
    (fun acc depId =>
       match JSMap.get nodeMap depId with
       | Some depNode => Qmax acc (earlyFinish depNode)
       | None => acc
       end)
    deps 0.

Definition setEarly (node : PertNode) (es : Q) : PertNode :=
  {| task := task node;
     duration := duration node;
     earlyStart := es;
     earlyFinish := es + duration node;
     lateStart := lateStart node;
     lateFinish := lateFinish node;
     slack := slack node;
     isCritical := isCritical node |}.

(** One iteration of the forward pass; [nodeMap.get(id)!] is not checked
    at run time, so reading [dependencies] of a missing node throws. *)
Definition forwardStep (nodeMap : JSMap.t PertNode) (id : string)
    : result (JSMap.t PertNode) :=
  match JSMap.get nodeMap id with
  | None => Throw TypeError
  | Some node =>
      Ok (JSMap.set nodeMap id
            (setEarly node (maxPredecessorEF nodeMap (node_deps node))))
  end.

Fixpoint forwardPass (sortedIds : list string) (nodeMap : JSMap.t PertNode)
    : result (JSMap.t PertNode) :=
  match sortedIds with
  | [] => Ok nodeMap
  | id :: rest => bind (forwardStep nodeMap id) (forwardPass rest)
  end.

Definition projectDurationOf (nodeMap : JSMap.t PertNode) : Q :=
  fold_left (fun pd n => Qmax pd (earlyFinish n)) (JSMap.values nodeMap) 0.

Definition minSuccessorLS (nodeMap : JSMap.t PertNode) (successors : list string)
    : number :=
  fold_left
    (fun acc succId =>
       match JSMap.get nodeMap succId with
       | Some succNode => number_min acc (lateStart succNode)
       | None => acc
       end)
    successors Infinity.

Definition setLate (node : PertNode) (lf : number) : PertNode :=
  let ls := number_sub lf (duration node) in
  let sl := number_sub ls (earlyStart node) in
  {| task := task node;
     duration := duration node;
     earlyStart := earlyStart node;
     earlyFinish := earlyFinish node;
     lateStart := ls;
     lateFinish := lf;
     slack := sl;
     isCritical := number_abs_lt sl (1 # 100) |}.

Definition successorsOf (successorsMap : JSMap.t (list string)) (id : string)
    : list string :=
  match JSMap.get successorsMap id with
  | Some succs => succs
  | None => []
  end.

Definition backwardStep (projectDuration : Q) (successorsMap : JSMap.t (list string))
    (nodeMap : JSMap.t PertNode) (id : string) : result (JSMap.t PertNode) :=
  match JSMap.get nodeMap id with
  | None => Throw TypeError
  | Some node =>
      let successors := successorsOf successorsMap id in
      let lf :=
        match successors with
        | [] => Num projectDuration
        | _ :: _ => minSuccessorLS nodeMap successors
        end in
      Ok (JSMap.set nodeMap id (setLate node lf))
  end.

Fixpoint backwardPass (projectDuration : Q) (successorsMap : JSMap.t (list string))
    (ids : list string) (nodeMap : JSMap.t PertNode) : result (JSMap.t PertNode) :=
  match ids with
  | [] => Ok nodeMap
  | id :: rest =>
      bind (backwardStep projectDuration successorsMap nodeMap id)
           (backwardPass projectDuration successorsMap rest)
  end.

Definition calculateCPM (tasks : list PertTask) : result (list PertNode) :=
  let nodeMap := initNodeMap tasks in
  let successorsMap := successorsMapOf tasks in
  match topologicalSort tasks with
  | None => Ok (JSMap.values nodeMap)
  | Some sortedIds =>
      bind (forwardPass sortedIds nodeMap) (fun nodeMap1 =>
      let projectDuration := projectDurationOf nodeMap1 in
      bind (backwardPass projectDuration successorsMap (rev sortedIds) nodeMap1)
           (fun nodeMap2 => Ok (JSMap.values nodeMap2)))
  end.

(** ** The dependency graph

    The graph the sorter walks: an edge leads from a task to each ID its
    [dependencies] list names, where the task of an ID is the one
    [taskMap] holds for it (when two tasks share an ID, the later one).
    An ID without a task has no edges. *)

Definition deps_of (taskMap : JSMap.t PertTask) (x : string) : list string :=
  match JSMap.get taskMap x with
  | Some task => dependencies task
  | None => []
  end.

Definition edge (taskMap : JSMap.t PertTask) (x y : string) : Prop :=
  In y (deps_of taskMap x).

Inductive path (taskMap : JSMap.t PertTask) : string -> string -> Prop :=
| path_refl x : path taskMap x x
| path_step x y z : edge taskMap x y -> path taskMap y z -> path taskMap x z.

(** A task that reaches itself through at least one dependency. *)
Definition has_cycle (taskMap : JSMap.t PertTask) : Prop :=
  exists x y, edge taskMap x y /\ path taskMap y x.

Definition cyclic (tasks : list PertTask) : Prop := has_cycle (taskMapOf tasks).
Definition acyclic (tasks : list PertTask) : Prop := ~ cyclic tasks.

(** Every element of [l] comes after all of its dependencies. *)
Definition topo_sorted (taskMap : JSMap.t PertTask) (l : list string) : Prop :=
  forall l1 x l2, l = l1 ++ x :: l2 ->
  forall d, edge taskMap x d -> In d l1.

(** What holds of the sets of [topologicalSort] between two calls of
    [visit]. *)
Record SortInv (taskMap : JSMap.t PertTask) (st : SortState) : Prop := {
  inv_visited : forall x, In x (visited st) <-> In x (order st);
  inv_nodup : NoDup (order st);
  inv_temp : forall x, In x (temp st) -> ~ In x (visited st);
  inv_topo : topo_sorted taskMap (order st)
}.

(** The outcome of [visit x] from [st]. *)
Definition visit_post (taskMap : JSMap.t PertTask) (x : string) (st : SortState)
    (r : bool * SortState) : Prop :=
  match r with
  | (true, st') =>
      SortInv taskMap st' /\ temp st' = temp st /\ In x (visited st') /\
      exists new, order st' = order st ++ new /\
                  forall y, In y new -> path taskMap x y
  | (false, _) =>
      (exists t, In t (temp st) /\ path taskMap x t) \/ has_cycle taskMap
  end.

(** The outcome of the loop over [deps] from [st]. *)
Definition visit_all_post (taskMap : JSMap.t PertTask) (deps : list string)
    (st : SortState) (r : bool * SortState) : Prop :=
  match r with
  | (true, st') =>
      SortInv taskMap st' /\ temp st' = temp st /\
      (forall d, In d deps -> In d (visited st')) /\
      exists new, order st' = order st ++ new /\
                  forall y, In y new -> exists d, In d deps /\ path taskMap d y
  | (false, _) =>
      (exists d t, In d deps /\ In t (temp st) /\ path taskMap d t)
      \/ has_cycle taskMap
  end.

(** The maps of the source that hold one entry per task ID, each built by
    [tasks.forEach(t => m.set(t.id, f(t)))]. *)
Definition buildMap {V : Type} (f : PertTask -> V) (tasks : list PertTask)
    (m : JSMap.t V) : JSMap.t V :=
  fold_left (fun m t => JSMap.set m (id t) (f t)) tasks m.

(** ** Reading the node map

    [fmap g m] keeps the keys of [m] and their order and applies [g] to the
    values: it is used to say which fields of the nodes a pass leaves alone. *)

Definition fmap {V W : Type} (g : V -> W) (m : JSMap.t V) : JSMap.t W :=
  map (fun kv => (fst kv, g (snd kv))) m.

(** The fields no pass writes, and the fields of the forward pass. *)
Definition static (n : PertNode) : PertTask * Q := (task n, duration n).
Definition early (n : PertNode) : Q * Q := (earlyStart n, earlyFinish n).

(** The node map holds, key by key, the tasks of the task map. *)
Definition agrees (taskMap : JSMap.t PertTask) (nodeMap : JSMap.t PertNode) : Prop :=
  forall k, option_map task (JSMap.get nodeMap k) = JSMap.get taskMap k.

(** The node of [x] carries what the forward pass computes from its
    dependencies. *)
Definition early_ok (taskMap : JSMap.t PertTask) (nodeMap : JSMap.t PertNode)
    (x : string) : Prop :=
  exists n, JSMap.get nodeMap x = Some n /\
            earlyStart n = maxPredecessorEF nodeMap (deps_of taskMap x) /\
            earlyFinish n = earlyStart n + duration n.

(** The steps of the two folds, named for the lemmas about them. *)
Definition maxStep (nodeMap : JSMap.t PertNode) (acc : Q) (depId : string) : Q :=
  match JSMap.get nodeMap depId with
  | Some depNode => Qmax acc (earlyFinish depNode)
  | None => acc
  end.

Definition minStep (nodeMap : JSMap.t PertNode) (acc : number) (succId : string) : number :=
  match JSMap.get nodeMap succId with
  | Some succNode => number_min acc (lateStart succNode)
  | None => acc
  end.

(** Every element of [l] comes after the elements [next] gives for it. *)
Definition sorted_by (next : string -> list string) (l : list string) : Prop :=
  forall l1 x l2, l = l1 ++ x :: l2 -> forall d, In d (next x) -> In d l1.

(** The late fields of a node as one iteration of the backward pass
    leaves them. *)
Definition late_local (n : PertNode) : Prop :=
  lateStart n = number_sub (lateFinish n) (duration n) /\
  slack n = number_sub (lateStart n) (earlyStart n) /\
  isCritical n = number_abs_lt (slack n) (1 # 100).

(** The node of [x] carries what the backward pass computes from its
    successors. *)
Definition late_ok (projectDuration : Q) (successorsMap : JSMap.t (list string))
    (nodeMap : JSMap.t PertNode) (x : string) : Prop :=
  exists n, JSMap.get nodeMap x = Some n /\ late_local n /\
            lateFinish n =
              match successorsOf successorsMap x with
              | [] => Num projectDuration
              | _ :: _ => minSuccessorLS nodeMap (successorsOf successorsMap x)
              end.

(** Every dependency names a task of the list. *)
Definition deps_present (tasks : list PertTask) : Prop :=
  forall t, In t tasks -> forall d, In d (dependencies t) -> In d (map id tasks).

(** What the node map holds when both passes went through [sortedIds]. *)
Record scheduled (tasks : list PertTask) (sortedIds : list string)
    (nodeMap : JSMap.t PertNode) : Prop := {
  sch_nodup : NoDup sortedIds;
  sch_topo : topo_sorted (taskMapOf tasks) sortedIds;
  sch_ids : forall x, In x sortedIds <-> In x (map id tasks);
  sch_keys : JSMap.keys nodeMap = JSMap.keys (taskMapOf tasks);
  sch_agrees : agrees (taskMapOf tasks) nodeMap;
  sch_duration : forall k n, JSMap.get nodeMap k = Some n ->
                 duration n = calculateExpectedTime (task n);
  sch_early : forall x, In x sortedIds -> early_ok (taskMapOf tasks) nodeMap x;
  sch_local : forall x, In x sortedIds ->
              exists n, JSMap.get nodeMap x = Some n /\ late_local n
}.

(** ** Sample inputs *)

Definition mkTask (i : string) (o m p : Q) (deps : list string) : PertTask :=
  {| id := i; name := i; optimistic := o; likely := m; pessimistic := p;
     dependencies := deps; category := None; startDate := None;
     timeUnit := None |}.

(** The scenario of the specification: A, then B and C, then D. *)
Definition scenario : list PertTask :=
  [ mkTask "A" 1 2 3 [];
    mkTask "B" 2 3 6 ["A"];
    mkTask "C" 1 2 4 ["A"];
    mkTask "D" 3 5 8 ["B"; "C"] ].

(** A loop: each of A, B, C depends on the next. *)
Definition loopABC : list PertTask :=
  [ mkTask "A" 1 1 1 ["B"];
    mkTask "B" 1 1 1 ["C"];
    mkTask "C" 1 1 1 ["A"] ].

(** A task whose one dependency names no task of the list. *)
Definition dangling : list PertTask := [ mkTask "A" 1 2 3 ["X"] ].

(** ** Calendar projection

    [Date] is the host's: what the code uses of it is modelled after
    ECMAScript.  A time value is a number of milliseconds since the epoch,
    in UTC, or [None] for the [NaN] of an invalid date.  The local time
    zone is a parameter [tz], the minutes local time is ahead of UTC, taken
    as constant (no daylight-saving change inside a projection).  A string
    is read by the date-time format [YYYY-MM-DDTHH:mm:ss], which carries no
    offset and therefore means local time; a string of this shape with an
    element out of range is invalid (a day up to 31 is in range in every
    month and runs over into the next, as [MakeDay] has it); what a string
    of another shape means is left to the host and is the parameter
    [host]. *)

Module Calendar.

Local Open Scope Z_scope.

Record CalendarRange : Type := {
  startDate : string;  (* ISO date e.g. "2026-02-12" *)
  endDate : string     (* ISO date *)
}.

Definition msPerDay : Z := 86400000.
Definition msPerMinute : Z := 60000.

(** Days since the epoch of a day of the proleptic Gregorian calendar
    ([month] from 1), and back. *)
Definition days_from_civil (y m d : Z) : Z :=
  let y := if m <=? 2 then y - 1 else y in
  let era := y / 400 in
  let yoe := y - era * 400 in
  let doy := (153 * (if 2 <? m then m - 3 else m + 9) + 2) / 5 + d - 1 in
  let doe := yoe * 365 + yoe / 4 - yoe / 100 + doy in
  era * 146097 + doe - 719468.

Definition civil_from_days (z : Z) : Z * Z * Z :=
  let z := z + 719468 in
  let era := z / 146097 in
  let doe := z - era * 146097 in
  let yoe := (doe - doe / 1460 + doe / 36524 - doe / 146096) / 365 in
  let y := yoe + era * 400 in
  let doy := doe - (365 * yoe + yoe / 4 - yoe / 100) in
  let mp := (5 * doy + 2) / 153 in
  let d := doy - (153 * mp + 2) / 5 + 1 in
  let m := if mp <? 10 then mp + 3 else mp - 9 in
  (if m <=? 2 then y + 1 else y, m, d).

(** [MakeDay(year, month, date)] with [month] from 0, as [setDate] calls
    it: a date outside the month runs into the neighbouring months. *)
Definition MakeDay (year month date : Z) : Z :=
  days_from_civil (year + month / 12) (month mod 12 + 1) 1 + date - 1.

(** [TimeClip]: a time value beyond 8.64e15 ms is not a date. *)
Definition TimeClip (t : Z) : option Z :=
  if Z.abs t <=? 8640000000000000 then Some t else None.

Definition digit_of (c : ascii) : option Z :=
  let n := Z.of_nat (nat_of_ascii c) in
  if (48 <=? n) && (n <=? 57) then Some (n - 48) else None.

Fixpoint number_of (cs : list ascii) (acc : Z) : option Z :=
  match cs with
  | [] => Some acc
  | c :: rest =>
      match digit_of c with
      | Some d => number_of rest (10 * acc + d)
      | None => None
      end
  end.

(** How a string reads as [YYYY-MM-DDTHH:mm:ss]. *)
Inductive reading : Type :=
| Legal (t : Z)      (* the local time it denotes, in ms *)
| Illegal            (* the shape is right, an element is out of range *)
| Unrecognised.      (* another shape *)

Definition read_date_time (s : string) : reading :=
  match list_ascii_of_string s with
  | [y1; y2; y3; y4; s1; m1; m2; s2; d1; d2; t; h1; h2; c1; n1; n2; c2; e1; e2] =>
      if (Ascii.eqb s1 "-" && Ascii.eqb s2 "-" && Ascii.eqb t "T"
          && Ascii.eqb c1 ":" && Ascii.eqb c2 ":")%bool
      then
        match number_of [y1; y2; y3; y4] 0, number_of [m1; m2] 0,
              number_of [d1; d2] 0, number_of [h1; h2] 0,
              number_of [n1; n2] 0, number_of [e1; e2] 0 with
        | Some y, Some m, Some d, Some h, Some n, Some e =>
            if ((1 <=? m) && (m <=? 12) && (1 <=? d) && (d <=? 31)
                && (h <=? 24) && (n <=? 59) && (e <=? 59)
                && ((h <? 24) || ((n =? 0) && (e =? 0))))%bool
            then Legal (MakeDay y (m - 1) d * msPerDay
                        + h * 3600000 + n * msPerMinute + e * 1000)
            else Illegal
        | _, _, _, _, _, _ => Unrecognised
        end
      else Unrecognised
  | _ => Unrecognised
  end.

Definition digit (n : Z) : ascii := ascii_of_nat (Z.to_nat (48 + n mod 10)).

Definition pad2 (n : Z) : string :=
  String (digit (n / 10)) (String (digit n) EmptyString).

Definition pad3 (n : Z) : string := String (digit (n / 100)) (pad2 n).

Definition pad4 (n : Z) : string := (pad2 (n / 100) ++ pad2 n)%string.

Definition pad6 (n : Z) : string := (pad2 (n / 10000) ++ pad4 n)%string.

(** The year of [toISOString]: four digits from 0 to 9999, otherwise a
    sign and six digits. *)
Definition iso_year (y : Z) : string :=
  if (0 <=? y) && (y <=? 9999) then pad4 y
  else if y <? 0 then ("-" ++ pad6 (- y))%string
  else ("+" ++ pad6 y)%string.

(** [s.split('T')[0]]. *)
Fixpoint before_T (s : string) : string :=
  match s with
  | EmptyString => EmptyString
  | String c rest => if Ascii.eqb c "T" then EmptyString else String c (before_T rest)
  end.

(** The date part of [toISOString] for a day number. *)
Definition isoDate (day : Z) : string :=
  let '(y, m, d) := civil_from_days day in
  (iso_year y ++ "-" ++ pad2 m ++ "-" ++ pad2 d)%string.

(** No character of the string is a T. *)
Fixpoint noT (s : string) : bool :=
  match s with
  | EmptyString => true
  | String c rest => negb (Ascii.eqb c "T") && noT rest
  end.

(** Whether a time value is in the range of [TimeClip]. *)
Definition in_range (t : Z) : Prop := Z.abs t <= 8640000000000000.

Section Host.
Variable tz : Z.
Variable host : string -> option Z.

Definition LocalTime (t : Z) : Z := t + tz * msPerMinute.
Definition UTC (t : Z) : Z := t - tz * msPerMinute.

(** [new Date(s)] for a string. *)
Definition Date_of_string (s : string) : option Z :=
  match read_date_time s with
  | Legal t => TimeClip (UTC t)
  | Illegal => None
  | Unrecognised => host s
  end.

(** [d.getDate()]: the day of the month in local time. *)
Definition getDate (t : Z) : Z :=
  let '(_, _, d) := civil_from_days (LocalTime t / msPerDay) in d.

(** [d.setDate(date)]: the same month and time of day in local time. *)
Definition setDate (t : Z) (date : Z) : option Z :=
  let local := LocalTime t in
  let '(y, m, _) := civil_from_days (local / msPerDay) in
  TimeClip (UTC (MakeDay y (m - 1) date * msPerDay + local mod msPerDay)).

(** [d.toISOString()]: the date and time in UTC; an invalid date throws. *)
Definition toISOString (d : option Z) : result string :=
  match d with
  | None => Throw RangeError
  | Some t =>
      let '(y, m, dd) := civil_from_days (t / msPerDay) in
      let ms := t mod msPerDay in
      Ok (iso_year y ++ "-" ++ pad2 m ++ "-" ++ pad2 dd ++ "T"
          ++ pad2 (ms / 3600000) ++ ":" ++ pad2 (ms / msPerMinute mod 60) ++ ":"
          ++ pad2 (ms / 1000 mod 60) ++ "." ++ pad3 (ms mod 1000) ++ "Z")%string
  end.

(** [Math.round]: the nearest integer, a half going up. *)
Definition Math_round (q : Q) : Z := Qfloor (q + (1 # 2))%Q.

(** The date [offset] days after [base], as [new Date(base)],
    [setDate(getDate() + Math.round(offset))] and
    [toISOString().split('T')[0]] give it. *)
Definition projectDate (base : Z) (offset : Q) : result string :=
  bind (toISOString (setDate base (getDate base + Math_round offset)))
       (fun iso => Ok (before_T iso)).

Fixpoint projectNodes (base : Z) (pertNodes : list PertNode)
    (ranges : JSMap.t CalendarRange) : result (JSMap.t CalendarRange) :=
  match pertNodes with
  | [] => Ok ranges
  | node :: rest =>
      bind (projectDate base (earlyStart node)) (fun start =>
      bind (projectDate base (earlyFinish node)) (fun end_ =>
      projectNodes base rest
        (JSMap.set ranges (node_id node) {| startDate := start; endDate := end_ |})))
  end.

Definition computeCalendarDates (pertNodes : list PertNode) (projectStartDate : string)
    : result (JSMap.t CalendarRange) :=
  match Date_of_string (projectStartDate ++ "T00:00:00")%string with
  | None => Ok JSMap.empty
  | Some base => projectNodes base pertNodes JSMap.empty
  end.

End Host.



(** A host that takes no string but those of the date-time format. *)
Definition strict_host : string -> option Z := fun _ => None.

(** A node with the given early times. *)
Definition sampleNode (i : string) (es ef : Q) : PertNode :=
  {| task := mkTask i 0 0 0 [];
     duration := (ef - es)%Q; earlyStart := es; earlyFinish := ef;
     lateStart := Num es; lateFinish := Num ef; slack := Num 0;
     isCritical := true |}.

End Calendar.

(** One task with negative estimates. *)
Definition negTask : list PertTask := [ mkTask "A" (-6) (-6) (-6) [] ].


(** Two tasks share the ID S; the first of them depends on A. *)
Definition dupTasks : list PertTask :=
  [ mkTask "S" 1 1 1 ["A"]; mkTask "S" 1 1 1 []; mkTask "A" 2 2 2 [] ].

(** The result of the scenario. *)
Definition scenario_nodes : list PertNode :=
  match calculateCPM scenario with
  | Ok nodes => nodes
  | Throw _ => []
  end.

(** ** Chains of nodes *)

(** Each node of the chain is a dependency of the next one. *)
Fixpoint linked (chain : list PertNode) : Prop :=
  match chain with
  | a :: (b :: _) as rest => In (node_id a) (node_deps b) /\ linked rest
  | _ => True
  end.

Definition sum_durations (chain : list PertNode) : Q :=
  fold_right (fun n acc => duration n + acc) 0 chain.

(** A chain of critical nodes of the result that starts at a node without
    dependencies and is linked up to its last node. *)
Definition critical_chain (nodes chain : list PertNode) : Prop :=
  (forall c, In c chain -> In c nodes /\ isCritical c = true) /\
  linked chain /\
  exists first rest, chain = first :: rest /\ node_deps first = [].

(** The late finish is finite and equal to the early finish. *)
Definition tight (n : PertNode) : Prop :=
  exists lf, lateFinish n = Num lf /\ lf == earlyFinish n.

(** ** The dependency graph a task list declares

    An edge leads from the ID of each task of the list to every ID its
    [dependencies] name.  With distinct IDs this is the graph the sorter
    walks (lemma [has_loop_cyclic]); when an ID repeats it has more edges,
    since the sorter reads the dependencies of the last task of an ID
    only. *)

(** The IDs of the tasks, each with the dependencies its task lists. *)
Definition declared (tasks : list PertTask) : list (string * list string) :=
  map (fun t => (id t, dependencies t)) tasks.

Definition depends (g : list (string * list string)) (x y : string) : Prop :=
  exists deps, In (x, deps) g /\ In y deps.

Inductive reaches (g : list (string * list string)) : string -> string -> Prop :=
| reaches_refl x : reaches g x x
| reaches_step x y z : depends g x y -> reaches g y z -> reaches g x z.

(** An ID that reaches itself through at least one dependency. *)
Definition has_loop (g : list (string * list string)) : Prop :=
  exists x y, depends g x y /\ reaches g y x.

(** A and B depend on each other, and a second task has the ID A. *)
Definition dupLoop : list PertTask :=
  [ mkTask "A" 1 1 1 ["B"]; mkTask "B" 2 2 2 ["A"]; mkTask "A" 3 3 3 [] ].

(** ** The engine over binary64 numbers

    [calculateExpectedTime], [topologicalSort] and [calculateCPM] once
    more, as the source has them, every [number] now a binary64 float of
    the kernel and every arithmetic operation the rounded one of IEEE 754.
    The sets of the sorter, the maps and the exceptions are those above. *)

Module Binary64.

Local Open Scope float_scope.

Record PertTask : Type := {
  id : string;
  name : string;
  optimistic : float;
  likely : float;
  pessimistic : float;
  dependencies : list string;
  category : option string;
  startDate : option string;
  timeUnit : option TimeUnit
}.

Record PertNode : Type := {
  task : PertTask;
  duration : float;
  earlyStart : float;
  earlyFinish : float;
  lateStart : float;
  lateFinish : float;
  slack : float;
  isCritical : bool
}.

Definition node_id (n : PertNode) : string := id (task n).
Definition node_deps (n : PertNode) : list string := dependencies (task n).

(** [Math.max] of two numbers: [NaN] if either is one, and +0 above -0. *)
Definition Math_max (a b : float) : float :=
  if is_nan a || is_nan b then nan
  else if a <? b then b
  else if b <? a then a
  else if get_sign a then b else a.

(** [Math.min] of two numbers: [NaN] if either is one, and -0 below +0. *)
Definition Math_min (a b : float) : float :=
  if is_nan a || is_nan b then nan
  else if a <? b then a
  else if b <? a then b
  else if get_sign a then a else b.

Definition calculateExpectedTime (task : PertTask) : float :=
  (optimistic task + 4 * likely task + pessimistic task) / 6.

Fixpoint visit (fuel : nat) (taskMap : JSMap.t PertTask) (taskId : string)
    (st : SortState) : option (bool * SortState) :=
  match fuel with
  | O => None
  | S fuel' =>
      if set_has (temp st) taskId then Some (false, st)
      else if set_has (visited st) taskId then Some (true, st)
      else
        let st1 := {| visited := visited st;
                      temp := set_add (temp st) taskId;
                      order := order st |} in
        let r :=
          match JSMap.get taskMap taskId with
          | Some task => visit_all (visit fuel' taskMap) (dependencies task) st1
          | None => Some (true, st1)
          end in
        match r with
        | None => None
        | Some (false, st2) => Some (false, st2)
        | Some (true, st2) =>
            Some (true, {| visited := set_add (visited st2) taskId;
                           temp := set_delete (temp st2) taskId;
                           order := order st2 ++ [taskId] |})
        end
  end.

Definition taskMapOf (tasks : list PertTask) : JSMap.t PertTask :=
  fold_left (fun m t => JSMap.set m (id t) t) tasks JSMap.empty.

Fixpoint sort_loop (fuel : nat) (taskMap : JSMap.t PertTask)
    (tasks : list PertTask) (st : SortState) : option (option SortState) :=
  match tasks with
  | [] => Some (Some st)
  | task :: rest =>
      if set_has (visited st) (id task) then sort_loop fuel taskMap rest st
      else
        match visit fuel taskMap (id task) st with
        | None => None
        | Some (false, _) => Some None
        | Some (true, st') => sort_loop fuel taskMap rest st'
        end
  end.

Definition topologicalSort_fuel (fuel : nat) (tasks : list PertTask)
    : option (option (list string)) :=
  match sort_loop fuel (taskMapOf tasks) tasks emptySort with
  | None => None
  | Some None => Some None
  | Some (Some st) => Some (Some (order st))
  end.

(** The same bound on the depth of the recursion as above (lemma
    [topologicalSort_skeleton] carries [topologicalSort_fuel_enough]
    over). *)
Definition topologicalSort (tasks : list PertTask) : option (list string) :=
  match topologicalSort_fuel (S (List.length tasks)) tasks with
  | Some r => r
  | None => None
  end.

Definition initNode (task : PertTask) : PertNode :=
  {| task := task;
     duration := calculateExpectedTime task;
     earlyStart := 0;
     earlyFinish := 0;
     lateStart := 0;
     lateFinish := 0;
     slack := 0;
     isCritical := false |}.

Definition initNodeMap (tasks : list PertTask) : JSMap.t PertNode :=
  fold_left (fun m task => JSMap.set m (id task) (initNode task)) tasks JSMap.empty.

Definition emptySuccessors (tasks : list PertTask) : JSMap.t (list string) :=
  fold_left (fun m t => JSMap.set m (id t) []) tasks JSMap.empty.

Definition successorsMapOf (tasks : list PertTask) : JSMap.t (list string) :=
  fold_left
    (fun m task => fold_left (pushSuccessor (id task)) (dependencies task) m)
    tasks (emptySuccessors tasks).

Definition maxPredecessorEF (nodeMap : JSMap.t PertNode) (deps : list string) : float :=
  fold_left
    (fun acc depId =>
       match JSMap.get nodeMap depId with
       | Some depNode => Math_max acc (earlyFinish depNode)
       | None => acc
       end)
    deps 0.

Definition setEarly (node : PertNode) (es : float) : PertNode :=
  {| task := task node;
     duration := duration node;
     earlyStart := es;
     earlyFinish := es + duration node;
     lateStart := lateStart node;
     lateFinish := lateFinish node;
     slack := slack node;
     isCritical := isCritical node |}.

Definition forwardStep (nodeMap : JSMap.t PertNode) (id : string)
    : result (JSMap.t PertNode) :=
  match JSMap.get nodeMap id with
  | None => Throw TypeError
  | Some node =>
      Ok (JSMap.set nodeMap id
            (setEarly node (maxPredecessorEF nodeMap (node_deps node))))
  end.

Fixpoint forwardPass (sortedIds : list string) (nodeMap : JSMap.t PertNode)
    : result (JSMap.t PertNode) :=
  match sortedIds with
  | [] => Ok nodeMap
  | id :: rest => bind (forwardStep nodeMap id) (forwardPass rest)
  end.

Definition projectDurationOf (nodeMap : JSMap.t PertNode) : float :=
  fold_left (fun pd n => Math_max pd (earlyFinish n)) (JSMap.values nodeMap) 0.

Definition minSuccessorLS (nodeMap : JSMap.t PertNode) (successors : list string)
    : float :=
  fold_left
    (fun acc succId =>
       match JSMap.get nodeMap succId with
       | Some succNode => Math_min acc (lateStart succNode)
       | None => acc
       end)
    successors infinity.

(** The binary64 number nearest to 0.01, which the literal [0.01]
    denotes. *)
Definition tolerance : float := 0x1.47ae147ae147bp-7.

Definition setLate (node : PertNode) (lf : float) : PertNode :=
  let ls := lf - duration node in
  let sl := ls - earlyStart node in
  {| task := task node;
     duration := duration node;
     earlyStart := earlyStart node;
     earlyFinish := earlyFinish node;
     lateStart := ls;
     lateFinish := lf;
     slack := sl;
     isCritical := abs sl <? tolerance |}.

Definition backwardStep (projectDuration : float) (successorsMap : JSMap.t (list string))
    (nodeMap : JSMap.t PertNode) (id : string) : result (JSMap.t PertNode) :=
  match JSMap.get nodeMap id with
  | None => Throw TypeError
  | Some node =>
      let successors := successorsOf successorsMap id in
      let lf :=
        match successors with
        | [] => projectDuration
        | _ :: _ => minSuccessorLS nodeMap successors
        end in
      Ok (JSMap.set nodeMap id (setLate node lf))
  end.

Fixpoint backwardPass (projectDuration : float) (successorsMap : JSMap.t (list string))
    (ids : list string) (nodeMap : JSMap.t PertNode) : result (JSMap.t PertNode) :=
  match ids with
  | [] => Ok nodeMap
  | id :: rest =>
      bind (backwardStep projectDuration successorsMap nodeMap id)
           (backwardPass projectDuration successorsMap rest)
  end.

Definition calculateCPM (tasks : list PertTask) : result (list PertNode) :=
  let nodeMap := initNodeMap tasks in
  let successorsMap := successorsMapOf tasks in
  match topologicalSort tasks with
  | None => Ok (JSMap.values nodeMap)
  | Some sortedIds =>
      bind (forwardPass sortedIds nodeMap) (fun nodeMap1 =>
      let projectDuration := projectDurationOf nodeMap1 in
      bind (backwardPass projectDuration successorsMap (rev sortedIds) nodeMap1)
           (fun nodeMap2 => Ok (JSMap.values nodeMap2)))
  end.

(** The IDs of the tasks, each with the dependencies its task lists. *)
Definition declared (tasks : list PertTask) : list (string * list string) :=
  map (fun t => (id t, dependencies t)) tasks.


Definition late_local (n : PertNode) : Prop :=
  lateStart n = lateFinish n - duration n /\
  slack n = lateStart n - earlyStart n /\
  isCritical n = (abs (slack n) <? tolerance).


(** *** Sample inputs *)

Definition mkTask (i : string) (o m p : float) (deps : list string) : PertTask :=
  {| id := i; name := i; optimistic := o; likely := m; pessimistic := p;
     dependencies := deps; category := None; startDate := None;
     timeUnit := None |}.

(** The scenario of the specification: A, then B and C, then D. *)
Definition scenario : list PertTask :=
  [ mkTask "A" 1 2 3 [];
    mkTask "B" 2 3 6 ["A"];
    mkTask "C" 1 2 4 ["A"];
    mkTask "D" 3 5 8 ["B"; "C"] ].

Definition scenario_nodes : list PertNode :=
  match calculateCPM scenario with
  | Ok nodes => nodes
  | Throw _ => []
  end.


(** One task with negative estimates. *)
Definition negTask : list PertTask := [ mkTask "A" (-6) (-6) (-6) [] ].

(** Two tasks share the ID S; the first of them depends on A. *)
Definition dupTasks : list PertTask :=
  [ mkTask "S" 1 1 1 ["A"]; mkTask "S" 1 1 1 []; mkTask "A" 2 2 2 [] ].

End Binary64.


(** ** The callers of the engine

    The chart component calls [calculateCPM(tasks)] on every change of its
    task list, outside any [try]: what [calculateCPM] throws, the render
    throws.  The callbacks below are the ones that add and remove tasks;
    each is the function the source passes to [setTasks], or the [tasks]
    of what the demo service resolves to. *)

(** [createEmptyTask]; [random] stands for what
    [Math.random().toString(36).substring(2, 11)] gives. *)
Definition createEmptyTask (random : string) : PertTask :=
  {| id := random; name := "New Task"; optimistic := 1; likely := 2; pessimistic := 4;
     dependencies := []; category := None; startDate := None; timeUnit := None |}.

Module App.

(** [addTask]: [[...prev, createEmptyTask()]]. *)
Definition addTask (random : string) (prev : list PertTask) : list PertTask :=
  prev ++ [createEmptyTask random].

(** [removeTask]: [prev.filter(t => t.id !== id)]. *)
Definition removeTask (taskId : string) (prev : list PertTask) : list PertTask :=
  filter (fun t => negb (String.eqb (id t) taskId)) prev.

End App.

(** [mockModifyChart] of the demo service ([services/llm]); the delay it
    awaits first is left out. *)
Module Llm.

Record ModifyChartResult : Type := {
  tasks : list PertTask;
  summary : string
}.

(** [s.includes(sub)]. *)
Fixpoint includes (s sub : string) : bool :=
  String.prefix sub s ||
  match s with
  | EmptyString => false
  | String _ rest => includes rest sub
  end.

(** The double and the single quote (characters 34 and 39), the two
    members of the character class of the pattern; the string of the
    first. *)
Definition isQuote (c : ascii) : bool :=
  Ascii.eqb c (ascii_of_nat 34) || Ascii.eqb c (ascii_of_nat 39).
Definition dquote : string := String (ascii_of_nat 34) EmptyString.

(** The longest run of characters that are not quotes, when a quote ends
    it. *)
Fixpoint upToQuote (s : string) : option string :=
  match s with
  | EmptyString => None
  | String c rest =>
      if isQuote c then Some EmptyString
      else option_map (String c) (upToQuote rest)
  end.

(** The first group of the leftmost match of the pattern quote, one or
    more characters that are not quotes, quote: what
    [userMessage.match(...)] gives at index 1, if there is a match. *)
Fixpoint quoted (s : string) : option string :=
  match s with
  | EmptyString => None
  | String c rest =>
      if isQuote c then
        match upToQuote rest with
        | Some (String a g) => Some (String a g)
        | _ => quoted rest
        end
      else quoted rest
  end.

Section Host.
(** [String.prototype.toLowerCase], and what
    [Math.random().toString(36).substring(2, 6)] gives. *)
Variable toLowerCase : string -> string.
Variable random : string.

Definition newTask (newId name : string) : PertTask :=
  {| id := newId; name := name; optimistic := 1; likely := 3; pessimistic := 5;
     dependencies := []; category := None; startDate := None; timeUnit := None |}.

Definition withoutDependency (taskId : string) (t : PertTask) : PertTask :=
  {| id := id t; name := name t; optimistic := optimistic t; likely := likely t;
     pessimistic := pessimistic t;
     dependencies := filter (fun d => negb (String.eqb d taskId)) (dependencies t);
     category := category t; startDate := startDate t; timeUnit := timeUnit t |}.

Definition mockModifyChart (currentTasks : list PertTask) (userMessage : string)
    : ModifyChartResult :=
  let lower := toLowerCase userMessage in
  if includes lower "add" || includes lower "new task" then
    let name :=
      match quoted userMessage with
      | Some g => g
      | None => "New Task"
      end in
    let newId := ("new" ++ random)%string in
    {| tasks := currentTasks ++ [newTask newId name];
       summary := ("Added task " ++ dquote ++ name ++ dquote ++ " (ID: " ++ newId ++ ")")%string |}
  else if includes lower "remove" || includes lower "delete" then
    match quoted userMessage with
    | Some g =>
        let nameToRemove := toLowerCase g in
        match find (fun t => includes (toLowerCase (name t)) nameToRemove) currentTasks with
        | Some toRemove =>
            {| tasks :=
                 map (withoutDependency (id toRemove))
                   (filter (fun t => negb (String.eqb (id t) (id toRemove))) currentTasks);
               summary := ("Removed task " ++ dquote ++ name toRemove ++ dquote)%string |}
        | None =>
            {| tasks := currentTasks;
               summary := ("Could not find task matching " ++ dquote ++ g ++ dquote)%string |}
        end
    | None =>
        {| tasks := currentTasks;
           summary := "Please specify which task to remove (use quotes around the name)" |}
    end
  else
    {| tasks := currentTasks;
       summary := "I understood your request but could not apply it in demo mode. Please connect an API key for full modification support." |}.

End Host.
End Llm.

(** Two tasks named alpha and beta, the second depending on the first. *)
Definition alphaBeta : list PertTask :=
  [ mkTask "alpha" 1 2 3 []; mkTask "beta" 1 2 3 ["alpha"] ].

(** Both dates of a node are dates the host can represent, counted from
    [base]. *)
Definition datesInRange (base : Z) (n : PertNode) : Prop :=
  Calendar.in_range (base + Calendar.Math_round (earlyStart n) * Calendar.msPerDay)%Z /\
  Calendar.in_range (base + Calendar.Math_round (earlyFinish n) * Calendar.msPerDay)%Z.

(** ** Tactics *)

(** Linear arithmetic with division and remainder by constants. *)
Ltac zdiv := Z.to_euclidean_division_equations; lia.

(** * Properties *)

(** ** Sets of strings *)

Lemma set_has_In (s : list string) (x : string) : set_has s x = true <-> In x s.
Proof.
  unfold set_has. rewrite existsb_exists. split.
  - intros [y [Hy He]]. apply String.eqb_eq in He. now subst.
  - intros H. exists x. split; [assumption | apply String.eqb_refl].
Qed.

Lemma set_has_false (s : list string) (x : string) : set_has s x = false <-> ~ In x s.
Proof.
  rewrite <- set_has_In. destruct (set_has s x); split; congruence.
Qed.

Lemma set_add_fresh (s : list string) (x : string) : ~ In x s -> set_add s x = x :: s.
Proof.
  intros H. unfold set_add. apply set_has_false in H. now rewrite H.
Qed.

Lemma set_delete_fresh (s : list string) (x : string) : ~ In x s -> set_delete s x = s.
Proof.
  unfold set_delete. induction s as [|y s IH]; simpl; intros H; [reflexivity|].
  destruct (String.eqb_spec x y) as [->|Hne]; simpl.
  - exfalso. apply H. now left.
  - f_equal. apply IH. intros Hx. apply H. now right.
Qed.

Lemma set_delete_head (s : list string) (x : string) :
  ~ In x s -> set_delete (x :: s) x = s.
Proof.
  intros H. unfold set_delete. simpl. rewrite String.eqb_refl. simpl.
  now apply set_delete_fresh.
Qed.

(** ** Maps *)

Section JSMapFacts.
Context {V : Type}.
Implicit Types (m : JSMap.t V) (k : string) (v : V).

Lemma get_set_eq m k v : JSMap.get (JSMap.set m k v) k = Some v.
Proof.
  induction m as [|[k' v'] m IH]; simpl.
  - now rewrite String.eqb_refl.
  - destruct (String.eqb_spec k' k) as [->|Hne]; simpl.
    + now rewrite String.eqb_refl.
    + destruct (String.eqb_spec k' k); [contradiction | exact IH].
Qed.

Lemma get_set_ne m k k' v : k <> k' -> JSMap.get (JSMap.set m k v) k' = JSMap.get m k'.
Proof.
  intros Hne. induction m as [|[k0 v0] m IH]; simpl.
  - destruct (String.eqb_spec k k'); [contradiction | reflexivity].
  - destruct (String.eqb_spec k0 k) as [->|Hk]; simpl.
    + destruct (String.eqb_spec k k'); [contradiction | reflexivity].
    + now rewrite IH.
Qed.

Lemma get_In_keys m k : JSMap.get m k <> None <-> In k (JSMap.keys m).
Proof.
  induction m as [|[k' v'] m IH]; simpl.
  - split; [congruence | tauto].
  - destruct (String.eqb_spec k' k) as [->|Hne].
    + split; [now left | congruence].
    + rewrite IH. split; [now right | intros [H|H]; [contradiction | exact H]].
Qed.

Lemma get_None_keys m k : JSMap.get m k = None <-> ~ In k (JSMap.keys m).
Proof.
  rewrite <- get_In_keys. destruct (JSMap.get m k); split; try congruence.
  intros H. exfalso. apply H. discriminate.
Qed.

Lemma get_Some_keys m k v : JSMap.get m k = Some v -> In k (JSMap.keys m).
Proof. intros H. apply get_In_keys. congruence. Qed.

Lemma keys_set_old m k v : In k (JSMap.keys m) -> JSMap.keys (JSMap.set m k v) = JSMap.keys m.
Proof.
  induction m as [|[k' v'] m IH]; simpl; [tauto|].
  intros H. destruct (String.eqb_spec k' k) as [->|Hne]; simpl; [reflexivity|].
  f_equal. apply IH. destruct H; [contradiction | assumption].
Qed.

Lemma keys_set_new m k v :
  ~ In k (JSMap.keys m) -> JSMap.keys (JSMap.set m k v) = JSMap.keys m ++ [k].
Proof.
  induction m as [|[k' v'] m IH]; simpl; [reflexivity|].
  intros H. destruct (String.eqb_spec k' k) as [->|Hne]; simpl.
  - exfalso. apply H. now left.
  - f_equal. apply IH. tauto.
Qed.

Lemma In_keys_set m k v k' :
  In k' (JSMap.keys (JSMap.set m k v)) <-> k' = k \/ In k' (JSMap.keys m).
Proof.
  rewrite <- !get_In_keys. destruct (String.eqb_spec k k') as [->|Hne].
  - rewrite get_set_eq. split; [now left | congruence].
  - rewrite get_set_ne by assumption. split; [now right | intros [H|H]; congruence].
Qed.

Lemma NoDup_keys_set m k v : NoDup (JSMap.keys m) -> NoDup (JSMap.keys (JSMap.set m k v)).
Proof.
  intros H. destruct (in_dec string_dec k (JSMap.keys m)) as [Hin|Hin].
  - now rewrite keys_set_old.
  - rewrite keys_set_new by assumption. apply NoDup_app; [assumption | repeat constructor; simpl; tauto|].
    intros x Hx [<-|[]]. contradiction.
Qed.

Lemma In_values_get m v :
  NoDup (JSMap.keys m) -> (In v (JSMap.values m) <-> exists k, JSMap.get m k = Some v).
Proof.
  induction m as [|[k' v'] m IH]; simpl; intros Hnd.
  - split; [tauto | intros [k H]; discriminate].
  - inversion Hnd as [|? ? Hk Hnd']; subst. split.
    + intros [<-|H].
      * exists k'. now rewrite String.eqb_refl.
      * apply IH in H; [|assumption]. destruct H as [k H]. exists k.
        destruct (String.eqb_spec k' k) as [->|Hne]; [|assumption].
        exfalso. apply Hk. now apply get_Some_keys in H.
    + intros [k H]. destruct (String.eqb_spec k' k) as [->|Hne].
      * left. congruence.
      * right. apply IH; [assumption | now exists k].
Qed.
End JSMapFacts.

(** ** Depth-first search *)

Section Sorter.
Variable taskMap : JSMap.t PertTask.

Lemma path_trans x y z : path taskMap x y -> path taskMap y z -> path taskMap x z.
Proof.
  induction 1; [trivial|]. intros Hz. eapply path_step; eauto.
Qed.

Lemma edge_has_task x y : edge taskMap x y -> In x (JSMap.keys taskMap).
Proof.
  unfold edge, deps_of. destruct (JSMap.get taskMap x) eqn:E; [|simpl; tauto].
  intros _. now apply get_Some_keys in E.
Qed.

Lemma SortInv_visited_grows st new st' :
  SortInv taskMap st' -> order st' = order st ++ new -> SortInv taskMap st ->
  forall x, In x (visited st) -> In x (visited st').
Proof.
  intros I' E I x Hx. apply (inv_visited _ _ I'). rewrite E. apply in_or_app. left.
  now apply (inv_visited _ _ I).
Qed.

Lemma topo_sorted_snoc l x :
  topo_sorted taskMap l -> (forall d, edge taskMap x d -> In d l) ->
  topo_sorted taskMap (l ++ [x]).
Proof.
  intros Ht Hx l1 y l2 E d Hd.
  destruct l2 as [|z l2] using rev_ind.
  - apply app_inj_tail in E. destruct E as [-> ->]. now apply Hx.
  - clear IHl2. change (l1 ++ y :: l2 ++ [z]) with (l1 ++ (y :: l2) ++ [z]) in E.
    rewrite app_assoc in E. apply app_inj_tail in E. destruct E as [E _].
    eapply Ht; eauto.
Qed.

(** A path only leads backwards in a sorted list. *)
Lemma path_before l :
  topo_sorted taskMap l ->
  forall x y, path taskMap x y ->
  forall l1 l2, l = l1 ++ x :: l2 -> y = x \/ In y l1.
Proof.
  intros Ht x y P. induction P as [x|x z y E P IH]; intros l1 l2 El; [now left|].
  right. pose proof (Ht _ _ _ El _ E) as Hz.
  apply in_split in Hz. destruct Hz as [a [b ->]].
  rewrite <- app_assoc in El. simpl in El.
  destruct (IH _ _ El) as [->|Hy]; apply in_or_app; [right; now left | now left].
Qed.

(** A list that is sorted and free of duplicates holds no element of a cycle. *)
Lemma sorted_no_cycle l x y :
  topo_sorted taskMap l -> NoDup l -> In x l ->
  edge taskMap x y -> path taskMap y x -> False.
Proof.
  intros Ht Hnd Hx E P. apply in_split in Hx. destruct Hx as [l1 [l2 ->]].
  pose proof (Ht _ _ _ eq_refl _ E) as Hy.
  apply NoDup_remove_2 in Hnd. apply Hnd. apply in_or_app. left.
  apply in_split in Hy. destruct Hy as [a [b ->]].
  assert (El : (a ++ y :: b) ++ x :: l2 = a ++ y :: (b ++ x :: l2))
    by (rewrite <- app_assoc; reflexivity).
  rewrite El in Ht.
  destruct (path_before _ Ht _ _ P _ _ eq_refl) as [->|Hin];
    apply in_or_app; [right; now left | now left].
Qed.

Lemma visit_all_spec (v : string -> SortState -> option (bool * SortState)) :
  (forall x st r, SortInv taskMap st -> v x st = Some r -> visit_post taskMap x st r) ->
  forall deps st r, SortInv taskMap st -> visit_all v deps st = Some r ->
  visit_all_post taskMap deps st r.
Proof.
  intros Hv. induction deps as [|d deps IH]; simpl; intros st r I H.
  - inversion H; subst; simpl. repeat split; try tauto; try apply I.
    exists []. rewrite app_nil_r. split; [reflexivity | intros y []].
  - destruct (v d st) as [[[|] st1]|] eqn:E; [| |discriminate].
    + pose proof (Hv _ _ _ I E) as P. simpl in P.
      destruct P as (I1 & T1 & V1 & new1 & O1 & R1).
      specialize (IH st1 r I1 H). destruct r as [[|] st2]; simpl in *.
      * destruct IH as (I2 & T2 & V2 & new2 & O2 & R2).
        split; [assumption|]. split; [congruence|]. split.
        -- intros d' [<-|Hd']; [|now apply V2].
           eapply SortInv_visited_grows; eauto.
        -- exists (new1 ++ new2). split; [rewrite O2, O1, app_assoc; reflexivity|].
           intros y Hy. apply in_app_or in Hy. destruct Hy as [Hy|Hy].
           ++ exists d. split; [now left | now apply R1].
           ++ destruct (R2 y Hy) as [d' [Hd' Hp]]. exists d'. split; [now right | assumption].
      * destruct IH as [(d' & t & Hd' & Ht & Hp)|C]; [left | now right].
        exists d', t. rewrite T1 in Ht. auto.
    + inversion H; subst. pose proof (Hv _ _ _ I E) as P. simpl in P. simpl.
      destruct P as [(t & Ht & Hp)|C]; [left | now right].
      exists d, t. auto.
Qed.

Lemma visit_spec fuel :
  forall x st r, SortInv taskMap st -> visit fuel taskMap x st = Some r ->
  visit_post taskMap x st r.
Proof.
  induction fuel as [|fuel IH]; simpl; intros x st r I H; [discriminate|].
  destruct (set_has (temp st) x) eqn:Ht.
  { inversion H; subst; simpl. left. exists x.
    split; [now apply set_has_In | constructor]. }
  destruct (set_has (visited st) x) eqn:Hv.
  { inversion H; subst; simpl. split; [assumption|]. split; [reflexivity|].
    split; [now apply set_has_In|]. exists []. rewrite app_nil_r.
    split; [reflexivity | intros y []]. }
  apply set_has_false in Ht, Hv. rewrite (set_add_fresh _ _ Ht) in H.
  set (st1 := {| visited := visited st; temp := x :: temp st; order := order st |}) in *.
  assert (I1 : SortInv taskMap st1).
  { destruct I as [Iv In It Io]. constructor; simpl; auto.
    intros y [<-|Hy]; auto. }
  assert (Hall : forall r',
    match JSMap.get taskMap x with
    | Some task => visit_all (visit fuel taskMap) (dependencies task) st1
    | None => Some (true, st1)
    end = Some r' -> visit_all_post taskMap (deps_of taskMap x) st1 r').
  { unfold deps_of. destruct (JSMap.get taskMap x); intros r' Hr'.
    - now apply visit_all_spec with (v := visit fuel taskMap).
    - inversion Hr'; subst; simpl. repeat split; try tauto; try apply I1.
      exists []. rewrite app_nil_r. split; [reflexivity | intros y []]. }
  destruct (match JSMap.get taskMap x with
            | Some task => visit_all (visit fuel taskMap) (dependencies task) st1
            | None => Some (true, st1)
            end) as [[[|] st2]|]; [| |discriminate].
  - specialize (Hall _ eq_refl). simpl in Hall.
    destruct Hall as (I2 & T2 & V2 & new & O2 & R2).
    assert (Hx2 : ~ In x (visited st2)).
    { apply (inv_temp _ _ I2). rewrite T2. now left. }
    inversion H; subst; simpl. rewrite (set_add_fresh _ _ Hx2), T2.
    rewrite (set_delete_head _ _ Ht).
    split; [|split; [reflexivity|split; [now left|]]].
    + destruct I2 as [Iv In It Io]. constructor; simpl.
      * intros y. rewrite in_app_iff, Iv. simpl. tauto.
      * apply NoDup_app; [assumption | repeat constructor; simpl; tauto|].
        intros y Hy [<-|[]]. apply Hx2. now apply Iv.
      * intros y Hy [<-|Hy']; [contradiction|].
        apply (It y); [rewrite T2; now right | assumption].
      * apply topo_sorted_snoc; [assumption|]. intros d Hd. apply Iv. now apply V2.
    + exists (new ++ [x]). split; [rewrite O2, app_assoc; reflexivity|].
      intros y Hy. apply in_app_or in Hy. destruct Hy as [Hy|[<-|[]]]; [|constructor].
      destruct (R2 y Hy) as [d [Hd Hp]]. eapply path_step; eauto.
  - specialize (Hall _ eq_refl). simpl in Hall. inversion H; subst; simpl.
    destruct Hall as [(d & t & Hd & [<-|Ht'] & Hp)|C]; [| |now right].
    + right. exists x, d. auto.
    + left. exists t. split; [assumption|]. eapply path_step; eauto.
Qed.

Lemma visit_all_total (v : string -> SortState -> option (bool * SortState)) T :
  (forall x st r, SortInv taskMap st -> v x st = Some r -> visit_post taskMap x st r) ->
  (forall x st, SortInv taskMap st -> temp st = T -> exists r, v x st = Some r) ->
  forall deps st, SortInv taskMap st -> temp st = T ->
  exists r, visit_all v deps st = Some r.
Proof.
  intros Hs Ht. induction deps as [|d deps IH]; simpl; intros st I E; [eauto|].
  destruct (Ht d st I E) as [[[|] st1] Hr]; rewrite Hr; [|eauto].
  pose proof (Hs _ _ _ I Hr) as P. simpl in P. destruct P as (I1 & T1 & _).
  apply IH; congruence.
Qed.

(** The stack [temp] holds distinct IDs that have a task, so [visit] never
    nests deeper than the number of keys of the task map. *)
Lemma visit_total fuel :
  forall x st, SortInv taskMap st -> NoDup (temp st) ->
  incl (temp st) (JSMap.keys taskMap) ->
  (List.length (JSMap.keys taskMap) < fuel + List.length (temp st))%nat ->
  exists r, visit fuel taskMap x st = Some r.
Proof.
  induction fuel as [|fuel IH]; intros x st I Hnd Hincl Hlen.
  - pose proof (NoDup_incl_length Hnd Hincl). simpl in Hlen. lia.
  - simpl. destruct (set_has (temp st) x) eqn:Ht; [eauto|].
    destruct (set_has (visited st) x) eqn:Hv; [eauto|].
    apply set_has_false in Ht, Hv. rewrite (set_add_fresh _ _ Ht).
    set (st1 := {| visited := visited st; temp := x :: temp st; order := order st |}).
    assert (I1 : SortInv taskMap st1).
    { destruct I as [Iv In It Io]. constructor; simpl; auto.
      intros y [<-|Hy]; auto. }
    destruct (JSMap.get taskMap x) as [task|] eqn:Eg; [|eauto].
    destruct (visit_all_total (visit fuel taskMap) (x :: temp st)) with
      (deps := dependencies task) (st := st1) as [[[|] st2] Hr];
      try rewrite Hr; eauto.
    + intros. eapply visit_spec; eauto.
    + intros y st' I' E'. apply IH; rewrite ?E'; trivial.
      * constructor; assumption.
      * intros z [<-|Hz]; [eapply get_Some_keys; eauto | now apply Hincl].
      * simpl. lia.
Qed.

Lemma visit_all_mono (v v' : string -> SortState -> option (bool * SortState)) :
  (forall x st r, v x st = Some r -> v' x st = Some r) ->
  forall deps st r, visit_all v deps st = Some r -> visit_all v' deps st = Some r.
Proof.
  intros Hv. induction deps as [|d deps IH]; simpl; intros st r H; [assumption|].
  destruct (v d st) as [[[|] st1]|] eqn:E; [| |discriminate];
    rewrite (Hv _ _ _ E); auto.
Qed.

Lemma visit_mono fuel :
  forall fuel' x st r, (fuel <= fuel')%nat ->
  visit fuel taskMap x st = Some r -> visit fuel' taskMap x st = Some r.
Proof.
  induction fuel as [|fuel IH]; intros fuel' x st r Hle H; [discriminate|].
  destruct fuel' as [|fuel']; [lia|]. simpl in *.
  destruct (set_has (temp st) x); [assumption|].
  destruct (set_has (visited st) x); [assumption|].
  destruct (JSMap.get taskMap x) as [task|]; [|assumption].
  destruct (visit_all (visit fuel taskMap) (dependencies task) _)
    as [r'|] eqn:E; [|discriminate].
  rewrite (visit_all_mono (visit fuel taskMap) (visit fuel' taskMap)) with (r := r');
    [assumption | | assumption].
  intros. apply IH; [lia | assumption].
Qed.

(** The loop of [topologicalSort] over the tasks. *)
Lemma sort_loop_spec fuel :
  forall tasks st, SortInv taskMap st -> temp st = [] ->
  match sort_loop fuel taskMap tasks st with
  | None => True
  | Some None => has_cycle taskMap
  | Some (Some st') =>
      SortInv taskMap st' /\ temp st' = [] /\
      (forall t, In t tasks -> In (id t) (visited st')) /\
      exists new, order st' = order st ++ new /\
                  forall y, In y new -> exists t, In t tasks /\ path taskMap (id t) y
  end.
Proof.
  induction tasks as [|t tasks IH]; simpl; intros st I E.
  - repeat split; try tauto; try apply I.
    exists []. rewrite app_nil_r. split; [reflexivity | intros y []].
  - destruct (set_has (visited st) (id t)) eqn:Hv.
    + specialize (IH st I E). destruct (sort_loop fuel taskMap tasks st) as [[st'|]|]; trivial.
      destruct IH as (I' & T' & V' & new & O' & R').
      split; [assumption|]. split; [assumption|]. split.
      * intros t' [<-|Ht']; [|now apply V'].
        apply set_has_In in Hv. eapply SortInv_visited_grows; eauto.
      * exists new. split; [assumption|]. intros y Hy.
        destruct (R' y Hy) as [t' [Ht' Hp]]. exists t'. split; [now right | assumption].
    + destruct (visit fuel taskMap (id t) st) as [[[|] st1]|] eqn:Ev; trivial.
      * pose proof (visit_spec _ _ _ _ I Ev) as P. simpl in P.
        destruct P as (I1 & T1 & V1 & new1 & O1 & R1).
        assert (E1 : temp st1 = []) by congruence.
        specialize (IH st1 I1 E1).
        destruct (sort_loop fuel taskMap tasks st1) as [[st'|]|]; trivial.
        destruct IH as (I' & T' & V' & new & O' & R').
        split; [assumption|]. split; [assumption|]. split.
        -- intros t' [<-|Ht']; [|now apply V'].
           eapply SortInv_visited_grows; eauto.
        -- exists (new1 ++ new). split; [rewrite O', O1, app_assoc; reflexivity|].
           intros y Hy. apply in_app_or in Hy. destruct Hy as [Hy|Hy].
           ++ exists t. split; [now left | now apply R1].
           ++ destruct (R' y Hy) as [t' [Ht' Hp]]. exists t'. split; [now right | assumption].
      * pose proof (visit_spec _ _ _ _ I Ev) as P. simpl in P.
        destruct P as [(x & Hx & _)|C]; [|assumption]. rewrite E in Hx. destruct Hx.
Qed.

Lemma sort_loop_total fuel :
  (List.length (JSMap.keys taskMap) < fuel)%nat ->
  forall tasks st, SortInv taskMap st -> temp st = [] ->
  sort_loop fuel taskMap tasks st <> None.
Proof.
  intros Hf. induction tasks as [|t tasks IH]; simpl; intros st I E; [discriminate|].
  destruct (set_has (visited st) (id t)); [now apply IH|].
  destruct (visit_total fuel (id t) st) as [[[|] st1] Hr]; trivial;
    rewrite ?E; try (constructor || (intros x []) || (simpl; lia)).
  - rewrite Hr. pose proof (visit_spec _ _ _ _ I Hr) as P. simpl in P.
    destruct P as (I1 & T1 & _). apply IH; congruence.
  - rewrite Hr. discriminate.
Qed.

Lemma sort_loop_mono fuel fuel' :
  (fuel <= fuel')%nat ->
  forall tasks st r, sort_loop fuel taskMap tasks st = Some r ->
  sort_loop fuel' taskMap tasks st = Some r.
Proof.
  intros Hle. induction tasks as [|t tasks IH]; simpl; intros st r H; [assumption|].
  destruct (set_has (visited st) (id t)); [now apply IH|].
  destruct (visit fuel taskMap (id t) st) as [[[|] st1]|] eqn:Ev; [| |discriminate];
    rewrite (visit_mono _ _ _ _ _ Hle Ev); auto.
Qed.

End Sorter.

(** ** The maps built from the task list *)

Section BuildMap.
Context {V : Type} (f : PertTask -> V).

Lemma In_keys_buildMap tasks : forall (m : JSMap.t V) k,
  In k (JSMap.keys (buildMap f tasks m)) <-> In k (JSMap.keys m) \/ In k (map id tasks).
Proof.
  induction tasks as [|t tasks IH]; simpl; intros m k; [tauto|].
  unfold buildMap in *. simpl. rewrite IH, In_keys_set. intuition congruence.
Qed.

Lemma NoDup_keys_buildMap tasks : forall (m : JSMap.t V),
  NoDup (JSMap.keys m) -> NoDup (JSMap.keys (buildMap f tasks m)).
Proof.
  induction tasks as [|t tasks IH]; simpl; intros m H; [assumption|].
  apply IH. now apply NoDup_keys_set.
Qed.

Lemma length_keys_set (m : JSMap.t V) k v :
  (List.length (JSMap.keys (JSMap.set m k v)) <= S (List.length (JSMap.keys m)))%nat.
Proof.
  destruct (in_dec string_dec k (JSMap.keys m)) as [Hin|Hin].
  - rewrite keys_set_old by assumption. lia.
  - rewrite keys_set_new by assumption. rewrite length_app. simpl. lia.
Qed.

Lemma length_keys_buildMap tasks : forall (m : JSMap.t V),
  (List.length (JSMap.keys (buildMap f tasks m))
   <= List.length (JSMap.keys m) + List.length tasks)%nat.
Proof.
  induction tasks as [|t tasks IH]; simpl; intros m; [lia|].
  unfold buildMap in *. simpl. specialize (IH (JSMap.set m (id t) (f t))).
  pose proof (length_keys_set m (id t) (f t)). lia.
Qed.

(** The entry of a key is made from the entry the task map has for it. *)
Lemma get_buildMap tasks : forall (m : JSMap.t V) (mt : JSMap.t PertTask),
  (forall k, JSMap.get m k = option_map f (JSMap.get mt k)) ->
  forall k, JSMap.get (buildMap f tasks m) k
            = option_map f (JSMap.get (buildMap (fun t => t) tasks mt) k).
Proof.
  induction tasks as [|t tasks IH]; simpl; intros m mt H k; [apply H|].
  unfold buildMap in *. simpl. apply IH. intros k'.
  destruct (string_dec (id t) k') as [<-|Hne].
  - now rewrite !get_set_eq.
  - rewrite !get_set_ne by assumption. apply H.
Qed.

Lemma keys_buildMap tasks : forall (m : JSMap.t V) (mt : JSMap.t PertTask),
  JSMap.keys m = JSMap.keys mt ->
  JSMap.keys (buildMap f tasks m) = JSMap.keys (buildMap (fun t => t) tasks mt).
Proof.
  induction tasks as [|t tasks IH]; simpl; intros m mt H; [assumption|].
  unfold buildMap in *. simpl. apply IH.
  destruct (in_dec string_dec (id t) (JSMap.keys m)) as [Hin|Hin].
  - rewrite !keys_set_old; congruence.
  - rewrite !keys_set_new; congruence.
Qed.
End BuildMap.

Lemma get_tasks_In tasks : forall (m : JSMap.t PertTask) k t,
  JSMap.get (buildMap (fun t => t) tasks m) k = Some t ->
  JSMap.get m k = Some t \/ (In t tasks /\ id t = k).
Proof.
  induction tasks as [|t0 tasks IH]; simpl; intros m k t H; [now left|].
  unfold buildMap in *. simpl in H. apply IH in H. destruct H as [H|[H1 H2]].
  - destruct (string_dec (id t0) k) as [<-|Hne].
    + rewrite get_set_eq in H. inversion H; subst. right. split; [now left | reflexivity].
    + rewrite get_set_ne in H by assumption. now left.
  - right. split; [now right | assumption].
Qed.

Lemma get_tasks_NoDup tasks : forall (m : JSMap.t PertTask) t,
  NoDup (map id tasks) -> In t tasks ->
  JSMap.get (buildMap (fun t => t) tasks m) (id t) = Some t.
Proof.
  induction tasks as [|t0 tasks IH]; simpl; intros m t Hnd Hin; [destruct Hin|].
  inversion Hnd as [|? ? Hn Hnd']; subst. unfold buildMap in *. simpl.
  destruct Hin as [->|Hin]; [|now apply IH].
  destruct (JSMap.get (fold_left (fun m0 t0 => JSMap.set m0 (id t0) t0) tasks
                         (JSMap.set m (id t) t)) (id t)) as [t'|] eqn:E.
  - apply get_tasks_In in E. destruct E as [E|[E1 E2]].
    + now rewrite get_set_eq in E.
    + exfalso. apply Hn. rewrite <- E2. now apply in_map.
  - exfalso. apply get_None_keys in E. apply E.
    apply (In_keys_buildMap (fun t => t)). left. apply In_keys_set. now left.
Qed.

Lemma taskMapOf_get_In tasks k t :
  JSMap.get (taskMapOf tasks) k = Some t -> In t tasks /\ id t = k.
Proof.
  intros H. apply get_tasks_In in H. destruct H as [H|H]; [discriminate | assumption].
Qed.

Lemma taskMapOf_get_NoDup tasks t :
  NoDup (map id tasks) -> In t tasks -> JSMap.get (taskMapOf tasks) (id t) = Some t.
Proof. apply get_tasks_NoDup. Qed.

(** With distinct IDs the graph of the sorter is the graph of the list:
    an edge leads from the ID of a task to each of its dependencies. *)
Lemma edge_iff_task tasks x y :
  NoDup (map id tasks) ->
  (edge (taskMapOf tasks) x y <->
   exists t, In t tasks /\ id t = x /\ In y (dependencies t)).
Proof.
  intros Hu. unfold edge, deps_of. split.
  - destruct (JSMap.get (taskMapOf tasks) x) as [t|] eqn:G; [|intros []].
    intros Hy. apply taskMapOf_get_In in G. destruct G as [Hin Hid]. exists t. auto.
  - intros [t [Hin [<- Hy]]]. now rewrite (taskMapOf_get_NoDup _ _ Hu Hin).
Qed.

Lemma taskMapOf_keys tasks k : In k (JSMap.keys (taskMapOf tasks)) <-> In k (map id tasks).
Proof.
  unfold taskMapOf. change (fold_left _ tasks JSMap.empty) with (buildMap (fun t => t) tasks JSMap.empty).
  rewrite In_keys_buildMap. simpl. tauto.
Qed.

Lemma taskMapOf_length tasks :
  (List.length (JSMap.keys (taskMapOf tasks)) <= List.length tasks)%nat.
Proof.
  pose proof (length_keys_buildMap (fun t => t) tasks JSMap.empty) as H. exact H.
Qed.

Lemma initNodeMap_get tasks k :
  JSMap.get (initNodeMap tasks) k = option_map initNode (JSMap.get (taskMapOf tasks) k).
Proof.
  apply (get_buildMap initNode tasks JSMap.empty JSMap.empty). reflexivity.
Qed.

Lemma initNodeMap_keys tasks : JSMap.keys (initNodeMap tasks) = JSMap.keys (taskMapOf tasks).
Proof. apply (keys_buildMap initNode tasks JSMap.empty JSMap.empty). reflexivity. Qed.

Lemma initNodeMap_NoDup tasks : NoDup (JSMap.keys (initNodeMap tasks)).
Proof. apply (NoDup_keys_buildMap initNode). constructor. Qed.

Lemma emptySuccessors_keys tasks :
  JSMap.keys (emptySuccessors tasks) = JSMap.keys (taskMapOf tasks).
Proof. apply (keys_buildMap (fun _ => []) tasks JSMap.empty JSMap.empty). reflexivity. Qed.

Lemma emptySuccessors_get tasks k :
  JSMap.get (emptySuccessors tasks) k
  = option_map (fun _ => []) (JSMap.get (taskMapOf tasks) k).
Proof.
  apply (get_buildMap (fun _ => []) tasks JSMap.empty JSMap.empty). reflexivity.
Qed.

(** ** The result of the sorter *)

Lemma SortInv_empty taskMap : SortInv taskMap emptySort.
Proof.
  constructor; simpl; try tauto; [constructor|].
  intros l1 x l2 E. destruct l1; discriminate.
Qed.

(** The bound [S (length tasks)] on the depth of the recursion is enough:
    more fuel gives the same result. *)
Lemma topologicalSort_fuel_enough tasks fuel :
  (S (List.length tasks) <= fuel)%nat ->
  topologicalSort_fuel fuel tasks = Some (topologicalSort tasks).
Proof.
  intros Hle. unfold topologicalSort, topologicalSort_fuel.
  pose proof (taskMapOf_length tasks) as Hlen.
  destruct (sort_loop (S (List.length tasks)) (taskMapOf tasks) tasks emptySort)
    as [r|] eqn:E.
  - rewrite (sort_loop_mono _ _ _ Hle _ _ _ E). destruct r; reflexivity.
  - exfalso. revert E. apply sort_loop_total; [lia | apply SortInv_empty | reflexivity].
Qed.

Lemma topologicalSort_None tasks : topologicalSort tasks = None -> cyclic tasks.
Proof.
  unfold topologicalSort, topologicalSort_fuel. intros H.
  pose proof (sort_loop_spec (taskMapOf tasks) (S (List.length tasks)) tasks emptySort
                (SortInv_empty _) eq_refl) as P.
  pose proof (taskMapOf_length tasks) as Hlen.
  destruct (sort_loop (S (List.length tasks)) (taskMapOf tasks) tasks emptySort)
    as [[st|]|] eqn:E.
  - discriminate.
  - exact P.
  - exfalso. revert E. apply sort_loop_total; [lia | apply SortInv_empty | reflexivity].
Qed.

(** What a sorted list of IDs is: free of duplicates, every element after
    its dependencies, every task in it, and nothing in it that no task
    reaches. *)
Lemma topologicalSort_Some tasks sortedIds :
  topologicalSort tasks = Some sortedIds ->
  NoDup sortedIds /\ topo_sorted (taskMapOf tasks) sortedIds /\
  (forall t, In t tasks -> In (id t) sortedIds) /\
  (forall y, In y sortedIds -> exists t, In t tasks /\ path (taskMapOf tasks) (id t) y).
Proof.
  unfold topologicalSort, topologicalSort_fuel. intros H.
  pose proof (sort_loop_spec (taskMapOf tasks) (S (List.length tasks)) tasks emptySort
                (SortInv_empty _) eq_refl) as P.
  destruct (sort_loop (S (List.length tasks)) (taskMapOf tasks) tasks emptySort)
    as [[st|]|]; try discriminate.
  inversion H; subst. destruct P as (I & _ & V & new & O & R). simpl in O. subst new.
  split; [apply I|]. split; [apply I|]. split; [|exact R].
  intros t Ht. apply (inv_visited _ _ I). now apply V.
Qed.

Lemma topologicalSort_Some_acyclic tasks sortedIds :
  topologicalSort tasks = Some sortedIds -> acyclic tasks.
Proof.
  intros H [x [y [E P]]]. apply topologicalSort_Some in H.
  destruct H as (Hnd & Ht & Hall & _).
  apply (sorted_no_cycle _ _ x y Ht Hnd); trivial.
  pose proof (edge_has_task _ _ _ E) as Hk. apply taskMapOf_keys in Hk.
  apply in_map_iff in Hk. destruct Hk as [t [<- Hin]]. now apply Hall.
Qed.

Lemma topologicalSort_cyclic tasks : cyclic tasks -> topologicalSort tasks = None.
Proof.
  intros C. destruct (topologicalSort tasks) as [l|] eqn:E; [|reflexivity].
  exfalso. exact (topologicalSort_Some_acyclic _ _ E C).
Qed.

Lemma topologicalSort_acyclic tasks :
  acyclic tasks -> exists sortedIds, topologicalSort tasks = Some sortedIds.
Proof.
  intros A. destruct (topologicalSort tasks) as [l|] eqn:E; [eauto|].
  exfalso. apply A. now apply topologicalSort_None.
Qed.

(** ** Fields a pass leaves alone *)

Section Fmap.
Context {V W : Type} (g : V -> W).

Lemma get_fmap (m : JSMap.t V) k : JSMap.get (fmap g m) k = option_map g (JSMap.get m k).
Proof.
  induction m as [|[k' v] m IH]; simpl; [reflexivity|].
  destruct (String.eqb k' k); [reflexivity | exact IH].
Qed.

Lemma keys_fmap (m : JSMap.t V) : JSMap.keys (fmap g m) = JSMap.keys m.
Proof. unfold JSMap.keys, fmap. rewrite map_map. reflexivity. Qed.

Lemma values_fmap (m : JSMap.t V) : JSMap.values (fmap g m) = map g (JSMap.values m).
Proof. unfold JSMap.values, fmap. rewrite !map_map. reflexivity. Qed.

Lemma fmap_set_same (m : JSMap.t V) k v v' :
  JSMap.get m k = Some v -> g v' = g v -> fmap g (JSMap.set m k v') = fmap g m.
Proof.
  induction m as [|[k0 v0] m IH]; simpl; [discriminate|].
  destruct (String.eqb_spec k0 k) as [->|Hne]; simpl; intros H E.
  - inversion H; subst. now rewrite E.
  - f_equal. now apply IH.
Qed.

Lemma fmap_eq_keys (m m' : JSMap.t V) : fmap g m' = fmap g m -> JSMap.keys m' = JSMap.keys m.
Proof. intros H. rewrite <- (keys_fmap m'), <- (keys_fmap m). now rewrite H. Qed.

Lemma fmap_eq_get (m m' : JSMap.t V) k :
  fmap g m' = fmap g m -> option_map g (JSMap.get m' k) = option_map g (JSMap.get m k).
Proof. intros H. rewrite <- !get_fmap. now rewrite H. Qed.
End Fmap.

Lemma agrees_init tasks : agrees (taskMapOf tasks) (initNodeMap tasks).
Proof.
  intros k. rewrite initNodeMap_get. now destruct (JSMap.get (taskMapOf tasks) k).
Qed.

Lemma agrees_static taskMap nm nm' :
  fmap static nm' = fmap static nm -> agrees taskMap nm -> agrees taskMap nm'.
Proof.
  intros H A k. rewrite <- (A k). pose proof (fmap_eq_get static nm nm' k H) as E.
  unfold static in E. destruct (JSMap.get nm' k), (JSMap.get nm k); simpl in *; congruence.
Qed.

Lemma agrees_deps taskMap nm x n :
  agrees taskMap nm -> JSMap.get nm x = Some n -> node_deps n = deps_of taskMap x.
Proof.
  intros A H. unfold deps_of. rewrite <- (A x), H. reflexivity.
Qed.

Lemma agrees_keys taskMap nm x :
  agrees taskMap nm -> (In x (JSMap.keys nm) <-> In x (JSMap.keys taskMap)).
Proof.
  intros A. rewrite <- !get_In_keys, <- (A x). destruct (JSMap.get nm x); simpl; split; congruence.
Qed.

(** ** Forward pass *)

Lemma forwardStep_Ok nm x nm' :
  forwardStep nm x = Ok nm' ->
  exists n, JSMap.get nm x = Some n /\
            nm' = JSMap.set nm x (setEarly n (maxPredecessorEF nm (node_deps n))).
Proof.
  unfold forwardStep. destruct (JSMap.get nm x) as [n|]; [|discriminate].
  intros H. inversion H. eauto.
Qed.

Lemma maxPredecessorEF_ext nm nm' deps :
  (forall d, In d deps ->
     option_map earlyFinish (JSMap.get nm d) = option_map earlyFinish (JSMap.get nm' d)) ->
  maxPredecessorEF nm deps = maxPredecessorEF nm' deps.
Proof.
  unfold maxPredecessorEF. generalize 0. induction deps as [|d deps IH]; simpl; intros acc H;
    [reflexivity|].
  pose proof (H d (or_introl eq_refl)) as Hd.
  destruct (JSMap.get nm d), (JSMap.get nm' d); simpl in Hd; try discriminate.
  - inversion Hd as [E]. rewrite E. apply IH. auto.
  - apply IH. auto.
Qed.

Section Forward.
Variable taskMap : JSMap.t PertTask.

Lemma topo_sorted_prefix done rest x :
  topo_sorted taskMap (done ++ rest) -> In x done ->
  forall d, edge taskMap x d -> In d done.
Proof.
  intros Ht Hx d Hd. apply in_split in Hx. destruct Hx as [a [b ->]].
  rewrite <- app_assoc in Ht. simpl in Ht.
  apply in_or_app. left. exact (Ht _ _ _ eq_refl _ Hd).
Qed.

Lemma early_ok_frame nm nm' x y :
  (forall k, k <> y -> JSMap.get nm' k = JSMap.get nm k) ->
  x <> y -> ~ edge taskMap x y -> early_ok taskMap nm x -> early_ok taskMap nm' x.
Proof.
  intros F Hx Hd [n [G [E1 E2]]]. exists n. rewrite (F x Hx). split; [assumption|].
  split; [|assumption]. rewrite E1. apply maxPredecessorEF_ext.
  intros d Hin. rewrite F; [reflexivity|]. intros ->. now apply Hd.
Qed.

Lemma forwardPass_early : forall rest done nm nm',
  agrees taskMap nm -> NoDup (done ++ rest) -> topo_sorted taskMap (done ++ rest) ->
  (forall x, In x done -> early_ok taskMap nm x) ->
  forwardPass rest nm = Ok nm' ->
  fmap static nm' = fmap static nm /\
  (forall x, In x (done ++ rest) -> early_ok taskMap nm' x).
Proof.
  induction rest as [|x rest IH]; simpl; intros done nm nm' A Hnd Ht Hdone H.
  - inversion H; subst. rewrite app_nil_r. auto.
  - destruct (forwardStep nm x) as [nm1|] eqn:Es; [|discriminate]. simpl in H.
    apply forwardStep_Ok in Es. destruct Es as [n [G E1]].
    assert (Hx : ~ In x done).
    { apply NoDup_remove_2 in Hnd. intros Hin. apply Hnd. apply in_or_app. now left. }
    assert (Hdx : ~ edge taskMap x x).
    { intros Hd. apply Hx. exact (Ht _ _ _ eq_refl _ Hd). }
    assert (F : forall k, k <> x -> JSMap.get nm1 k = JSMap.get nm k).
    { intros k Hk. subst nm1. apply get_set_ne. congruence. }
    assert (S1 : fmap static nm1 = fmap static nm).
    { subst nm1. eapply fmap_set_same; eauto. }
    assert (Hdone' : forall y, In y (done ++ [x]) -> early_ok taskMap nm1 y).
    { intros y Hy. apply in_app_or in Hy. destruct Hy as [Hy|[<-|[]]].
      - apply early_ok_frame with (nm := nm) (y := x); auto.
        + intros ->. contradiction.
        + intros Hd. apply Hx. eapply topo_sorted_prefix; eauto.
      - exists (setEarly n (maxPredecessorEF nm (node_deps n))).
        split; [subst nm1; apply get_set_eq|]. simpl. split; [|reflexivity].
        rewrite (agrees_deps _ _ _ _ A G). apply maxPredecessorEF_ext.
        intros d Hd. rewrite F; [reflexivity|]. intros ->. now apply Hdx. }
    assert (El : (done ++ [x]) ++ rest = done ++ x :: rest)
      by (rewrite <- app_assoc; reflexivity).
    destruct (IH (done ++ [x]) nm1 nm') as [S2 Hall]; rewrite ?El; auto.
    + eapply agrees_static; eauto.
    + split; [congruence|]. rewrite <- El. exact Hall.
Qed.
End Forward.

Lemma forwardPass_total : forall ids nm,
  (forall x, In x ids -> In x (JSMap.keys nm)) -> exists nm', forwardPass ids nm = Ok nm'.
Proof.
  induction ids as [|x ids IH]; simpl; intros nm H; [eauto|].
  unfold forwardStep. destruct (JSMap.get nm x) as [n|] eqn:G.
  - simpl. apply IH. intros y Hy. rewrite keys_set_old; [auto|].
    eapply get_Some_keys; eauto.
  - exfalso. apply get_None_keys in G. auto.
Qed.

Lemma forwardPass_keys : forall ids nm nm',
  forwardPass ids nm = Ok nm' -> forall x, In x ids -> In x (JSMap.keys nm).
Proof.
  induction ids as [|x ids IH]; simpl; intros nm nm' H y Hy; [destruct Hy|].
  destruct (forwardStep nm x) as [nm1|] eqn:Es; [|discriminate]. simpl in H.
  apply forwardStep_Ok in Es. destruct Es as [n [G ->]].
  pose proof (get_Some_keys _ _ _ G) as Hk.
  destruct Hy as [<-|Hy]; [assumption|].
  rewrite <- (keys_set_old nm x (setEarly n (maxPredecessorEF nm (node_deps n))) Hk).
  eapply IH; eauto.
Qed.

(** An ID without a node stops the forward pass: [nodeMap.get(id)] is
    [undefined] and reading its [dependencies] throws. *)
Lemma forwardPass_throw : forall ids nm x,
  In x ids -> ~ In x (JSMap.keys nm) -> forwardPass ids nm = Throw TypeError.
Proof.
  induction ids as [|y ids IH]; simpl; intros nm x Hx Hk; [destruct Hx|].
  unfold forwardStep. destruct (JSMap.get nm y) as [n|] eqn:G; [|reflexivity].
  simpl. pose proof (get_Some_keys _ _ _ G) as Hy.
  destruct Hx as [->|Hx]; [contradiction|].
  apply (IH _ x); [assumption|]. now rewrite keys_set_old.
Qed.

(** ** Backward pass *)

Lemma backwardStep_Ok pd succ nm x nm' :
  backwardStep pd succ nm x = Ok nm' ->
  exists n, JSMap.get nm x = Some n /\
            nm' = JSMap.set nm x
                    (setLate n match successorsOf succ x with
                               | [] => Num pd
                               | _ :: _ => minSuccessorLS nm (successorsOf succ x)
                               end).
Proof.
  unfold backwardStep. destruct (JSMap.get nm x) as [n|]; [|discriminate].
  intros H. inversion H. eauto.
Qed.

Lemma minSuccessorLS_ext nm nm' succs :
  (forall s, In s succs ->
     option_map lateStart (JSMap.get nm s) = option_map lateStart (JSMap.get nm' s)) ->
  minSuccessorLS nm succs = minSuccessorLS nm' succs.
Proof.
  unfold minSuccessorLS. generalize Infinity.
  induction succs as [|s succs IH]; simpl; intros acc H; [reflexivity|].
  pose proof (H s (or_introl eq_refl)) as Hs.
  destruct (JSMap.get nm s), (JSMap.get nm' s); simpl in Hs; try discriminate.
  - inversion Hs as [E]. rewrite E. apply IH. auto.
  - apply IH. auto.
Qed.

Lemma setLate_local n lf : late_local (setLate n lf).
Proof. unfold late_local, setLate. simpl. auto. Qed.

Section Backward.
Variables (pd : Q) (succ : JSMap.t (list string)).

Lemma late_ok_frame nm nm' x y :
  (forall k, k <> y -> JSMap.get nm' k = JSMap.get nm k) ->
  x <> y -> ~ In y (successorsOf succ x) -> late_ok pd succ nm x -> late_ok pd succ nm' x.
Proof.
  intros F Hx Hs [n [G [L E]]]. exists n. rewrite (F x Hx). split; [assumption|].
  split; [assumption|]. rewrite E. destruct (successorsOf succ x) as [|s0 l] eqn:Es;
    [reflexivity|].
  apply minSuccessorLS_ext. intros s Hin. rewrite F; [reflexivity|].
  intros ->. now apply Hs.
Qed.

Lemma sorted_by_prefix next done rest x :
  sorted_by next (done ++ rest) -> In x done -> forall d, In d (next x) -> In d done.
Proof.
  intros Ht Hx d Hd. apply in_split in Hx. destruct Hx as [a [b ->]].
  rewrite <- app_assoc in Ht. simpl in Ht.
  apply in_or_app. left. exact (Ht _ _ _ eq_refl _ Hd).
Qed.

Lemma backwardPass_late : forall rest done nm nm',
  NoDup (done ++ rest) -> sorted_by (successorsOf succ) (done ++ rest) ->
  (forall x, In x done -> late_ok pd succ nm x) ->
  backwardPass pd succ rest nm = Ok nm' ->
  fmap static nm' = fmap static nm /\ fmap early nm' = fmap early nm /\
  (forall x, In x (done ++ rest) -> late_ok pd succ nm' x).
Proof.
  induction rest as [|x rest IH]; simpl; intros done nm nm' Hnd Ht Hdone H.
  - inversion H; subst. rewrite app_nil_r. auto.
  - destruct (backwardStep pd succ nm x) as [nm1|] eqn:Es; [|discriminate]. simpl in H.
    apply backwardStep_Ok in Es. destruct Es as [n [G E1]].
    assert (Hx : ~ In x done).
    { apply NoDup_remove_2 in Hnd. intros Hin. apply Hnd. apply in_or_app. now left. }
    assert (Hsx : ~ In x (successorsOf succ x)).
    { intros Hd. apply Hx. exact (Ht _ _ _ eq_refl _ Hd). }
    assert (F : forall k, k <> x -> JSMap.get nm1 k = JSMap.get nm k).
    { intros k Hk. subst nm1. apply get_set_ne. congruence. }
    assert (S1 : fmap static nm1 = fmap static nm).
    { subst nm1. eapply fmap_set_same; eauto. }
    assert (S2 : fmap early nm1 = fmap early nm).
    { subst nm1. eapply fmap_set_same; eauto. }
    assert (Hdone' : forall y, In y (done ++ [x]) -> late_ok pd succ nm1 y).
    { intros y Hy. apply in_app_or in Hy. destruct Hy as [Hy|[<-|[]]].
      - apply late_ok_frame with (nm := nm) (y := x); auto.
        + intros ->. contradiction.
        + intros Hd. apply Hx. eapply sorted_by_prefix; eauto.
      - eexists. split; [subst nm1; apply get_set_eq|].
        split; [apply setLate_local|]. simpl.
        destruct (successorsOf succ x) as [|s0 l] eqn:Esx; [reflexivity|].
        apply minSuccessorLS_ext. intros s Hs. rewrite F; [reflexivity|].
        intros ->. now apply Hsx. }
    assert (El : (done ++ [x]) ++ rest = done ++ x :: rest)
      by (rewrite <- app_assoc; reflexivity).
    destruct (IH (done ++ [x]) nm1 nm') as [S3 [S4 Hall]]; rewrite ?El; auto.
    split; [congruence|]. split; [congruence|]. rewrite <- El. exact Hall.
Qed.

(** Without any assumption on the order, each node is left as its own
    iteration wrote it. *)
Lemma backwardPass_local : forall rest done nm nm',
  NoDup (done ++ rest) ->
  (forall x, In x done -> exists n, JSMap.get nm x = Some n /\ late_local n) ->
  backwardPass pd succ rest nm = Ok nm' ->
  fmap static nm' = fmap static nm /\ fmap early nm' = fmap early nm /\
  (forall x, In x (done ++ rest) -> exists n, JSMap.get nm' x = Some n /\ late_local n).
Proof.
  induction rest as [|x rest IH]; simpl; intros done nm nm' Hnd Hdone H.
  - inversion H; subst. rewrite app_nil_r. auto.
  - destruct (backwardStep pd succ nm x) as [nm1|] eqn:Es; [|discriminate]. simpl in H.
    apply backwardStep_Ok in Es. destruct Es as [n [G E1]].
    assert (Hx : ~ In x done).
    { apply NoDup_remove_2 in Hnd. intros Hin. apply Hnd. apply in_or_app. now left. }
    assert (S1 : fmap static nm1 = fmap static nm).
    { subst nm1. eapply fmap_set_same; eauto. }
    assert (S2 : fmap early nm1 = fmap early nm).
    { subst nm1. eapply fmap_set_same; eauto. }
    assert (El : (done ++ [x]) ++ rest = done ++ x :: rest)
      by (rewrite <- app_assoc; reflexivity).
    destruct (IH (done ++ [x]) nm1 nm') as [S3 [S4 Hall]]; rewrite ?El; auto.
    + intros y Hy. apply in_app_or in Hy. destruct Hy as [Hy|[<-|[]]].
      * destruct (Hdone y Hy) as [n' [G' L']]. exists n'. split; [|assumption].
        subst nm1. rewrite get_set_ne; [assumption|]. intros ->. contradiction.
      * eexists. split; [subst nm1; apply get_set_eq | apply setLate_local].
    + split; [congruence|]. split; [congruence|]. rewrite <- El. exact Hall.
Qed.

Lemma backwardPass_total : forall ids nm,
  (forall x, In x ids -> In x (JSMap.keys nm)) ->
  exists nm', backwardPass pd succ ids nm = Ok nm'.
Proof.
  induction ids as [|x ids IH]; simpl; intros nm H; [eauto|].
  unfold backwardStep. destruct (JSMap.get nm x) as [n|] eqn:G.
  - simpl. apply IH. intros y Hy. rewrite keys_set_old; [auto|].
    eapply get_Some_keys; eauto.
  - exfalso. apply get_None_keys in G. auto.
Qed.
End Backward.

(** ** The successors map *)

Lemma pushSuccessor_keys tid (m : JSMap.t (list string)) d :
  JSMap.keys (pushSuccessor tid m d) = JSMap.keys m.
Proof.
  unfold pushSuccessor. destruct (JSMap.get m d) eqn:G; [|reflexivity].
  apply keys_set_old. eapply get_Some_keys; eauto.
Qed.

Lemma pushSuccessor_In tid (m : JSMap.t (list string)) d x s :
  In s (successorsOf (pushSuccessor tid m d) x) <->
  In s (successorsOf m x) \/ (x = d /\ s = tid /\ In d (JSMap.keys m)).
Proof.
  unfold pushSuccessor, successorsOf. destruct (JSMap.get m d) as [l|] eqn:G.
  - pose proof (get_Some_keys _ _ _ G) as Hk. destruct (string_dec d x) as [<-|Hne].
    + rewrite get_set_eq, G, in_app_iff. simpl. intuition congruence.
    + rewrite get_set_ne by assumption. intuition congruence.
  - apply get_None_keys in G. intuition congruence.
Qed.

Lemma pushSuccessors_keys tid deps : forall (m : JSMap.t (list string)),
  JSMap.keys (fold_left (pushSuccessor tid) deps m) = JSMap.keys m.
Proof.
  induction deps as [|d deps IH]; simpl; intros m; [reflexivity|].
  now rewrite IH, pushSuccessor_keys.
Qed.

Lemma pushSuccessors_In tid deps : forall (m : JSMap.t (list string)) x s,
  In s (successorsOf (fold_left (pushSuccessor tid) deps m) x) <->
  In s (successorsOf m x) \/ (In x deps /\ s = tid /\ In x (JSMap.keys m)).
Proof.
  induction deps as [|d deps IH]; simpl; intros m x s; [tauto|].
  rewrite IH, pushSuccessor_In, pushSuccessor_keys. intuition (subst; auto).
Qed.

Lemma addSuccessors_keys tasks : forall (m : JSMap.t (list string)),
  JSMap.keys (fold_left (fun m task => fold_left (pushSuccessor (id task)) (dependencies task) m)
                tasks m) = JSMap.keys m.
Proof.
  induction tasks as [|t tasks IH]; simpl; intros m; [reflexivity|].
  now rewrite IH, pushSuccessors_keys.
Qed.

Lemma addSuccessors_In tasks : forall (m : JSMap.t (list string)) x s,
  In s (successorsOf
          (fold_left (fun m task => fold_left (pushSuccessor (id task)) (dependencies task) m)
             tasks m) x) <->
  In s (successorsOf m x) \/
  (In x (JSMap.keys m) /\ exists t, In t tasks /\ id t = s /\ In x (dependencies t)).
Proof.
  induction tasks as [|t tasks IH]; simpl; intros m x s.
  - split; [now left | intros [H|[_ [t [[] _]]]]; exact H].
  - rewrite IH, pushSuccessors_In, pushSuccessors_keys. split.
    + intros [[H|(H1 & H2 & H3)]|(H1 & t' & H2 & H3 & H4)]; [now left | |].
      * right. split; [assumption|]. exists t. subst. auto.
      * right. split; [assumption|]. exists t'. auto.
    + intros [H|(H1 & t' & [<-|H2] & H3 & H4)]; [now left; left | |].
      * left. right. subst. auto.
      * right. split; [assumption|]. exists t'. auto.
Qed.

(** The successors of [x] are the tasks that list [x] among their
    dependencies, when [x] is the ID of a task; no other ID has any. *)
Lemma successorsMapOf_In tasks x s :
  In s (successorsOf (successorsMapOf tasks) x) <->
  In x (map id tasks) /\ exists t, In t tasks /\ id t = s /\ In x (dependencies t).
Proof.
  unfold successorsMapOf. rewrite addSuccessors_In.
  rewrite emptySuccessors_keys, taskMapOf_keys.
  assert (E : successorsOf (emptySuccessors tasks) x = []).
  { unfold successorsOf. rewrite emptySuccessors_get.
    now destruct (JSMap.get (taskMapOf tasks) x). }
  rewrite E. simpl. tauto.
Qed.

Lemma successorsMapOf_nil tasks x :
  successorsOf (successorsMapOf tasks) x = [] <->
  (In x (map id tasks) -> forall t, In t tasks -> ~ In x (dependencies t)).
Proof.
  split.
  - intros E Hx t Ht Hd.
    assert (H : In (id t) (successorsOf (successorsMapOf tasks) x)).
    { apply successorsMapOf_In. split; [assumption|]. exists t. auto. }
    rewrite E in H. destruct H.
  - intros H. destruct (successorsOf (successorsMapOf tasks) x) as [|s l] eqn:E; [reflexivity|].
    exfalso. assert (Hs : In s (successorsOf (successorsMapOf tasks) x)) by (rewrite E; now left).
    apply successorsMapOf_In in Hs. destruct Hs as [Hx [t [Ht [_ Hd]]]]. exact (H Hx t Ht Hd).
Qed.

(** The reverse of a sorted list is sorted for the successors. *)
Lemma rev_sorted taskMap (succs : string -> list string) l :
  NoDup l -> topo_sorted taskMap l ->
  (forall x s, In s (succs x) -> edge taskMap s x /\ In s l) ->
  sorted_by succs (rev l).
Proof.
  intros Hnd Ht Hs l1 x l2 E s Hin.
  destruct (Hs x s Hin) as [He Hl].
  assert (El : l = rev l2 ++ x :: rev l1).
  { rewrite <- (rev_involutive l), E, rev_app_distr. simpl. now rewrite <- app_assoc. }
  rewrite El in Hl. apply in_app_or in Hl. destruct Hl as [Hl|[<-|Hl]].
  - exfalso. apply in_split in Hl. destruct Hl as [a [b Eab]].
    rewrite Eab, <- app_assoc in El. simpl in El.
    pose proof (Ht _ _ _ El _ He) as Hx.
    rewrite El in Hnd. rewrite app_comm_cons, app_assoc in Hnd.
    apply NoDup_remove_2 in Hnd. apply Hnd. apply in_or_app. left. apply in_or_app. now left.
  - exfalso. pose proof (Ht _ _ _ El _ He) as Hx.
    rewrite El in Hnd. apply NoDup_remove_2 in Hnd. apply Hnd. apply in_or_app. now left.
  - now apply in_rev.
Qed.

(** ** The two passes together *)

Lemma projectDurationOf_early nm nm' :
  fmap early nm' = fmap early nm -> projectDurationOf nm' = projectDurationOf nm.
Proof.
  intros H. unfold projectDurationOf.
  assert (E : map early (JSMap.values nm') = map early (JSMap.values nm)).
  { rewrite <- !values_fmap. now rewrite H. }
  revert E. generalize (JSMap.values nm) as l, (JSMap.values nm') as l'. generalize 0.
  intros acc l. revert acc. induction l as [|n l IH]; intros acc [|n' l'] E; simpl in *;
    try discriminate; [reflexivity|].
  inversion E as [[E1 E2 E3]]. rewrite E2. now apply IH.
Qed.

Lemma early_ok_transfer taskMap nm nm' x :
  fmap static nm' = fmap static nm -> fmap early nm' = fmap early nm ->
  early_ok taskMap nm x -> early_ok taskMap nm' x.
Proof.
  intros S E [n [G [E1 E2]]].
  pose proof (fmap_eq_get static nm nm' x S) as Sx.
  pose proof (fmap_eq_get early nm nm' x E) as Ex.
  rewrite G in Sx, Ex. destruct (JSMap.get nm' x) as [n'|] eqn:G'; [|discriminate].
  simpl in Sx, Ex. unfold static in Sx. unfold early in Ex.
  inversion Sx as [[S1 S2]]. inversion Ex as [[X1 X2]].
  exists n'. split; [exact G'|]. rewrite X1, X2, S2. split; [|assumption].
  rewrite E1. apply maxPredecessorEF_ext. intros d _.
  pose proof (fmap_eq_get early nm nm' d E) as Ed.
  destruct (JSMap.get nm d), (JSMap.get nm' d); simpl in *; try discriminate; [|reflexivity].
  unfold early in Ed. congruence.
Qed.

Lemma calculateCPM_sorted tasks sortedIds :
  topologicalSort tasks = Some sortedIds ->
  calculateCPM tasks =
    bind (forwardPass sortedIds (initNodeMap tasks)) (fun nodeMap1 =>
    bind (backwardPass (projectDurationOf nodeMap1) (successorsMapOf tasks)
            (rev sortedIds) nodeMap1)
         (fun nodeMap2 => Ok (JSMap.values nodeMap2))).
Proof. intros H. unfold calculateCPM. now rewrite H. Qed.

Lemma calculateCPM_unsorted tasks :
  topologicalSort tasks = None ->
  calculateCPM tasks = Ok (JSMap.values (initNodeMap tasks)).
Proof. intros H. unfold calculateCPM. now rewrite H. Qed.

Lemma initNodeMap_duration tasks k n :
  JSMap.get (initNodeMap tasks) k = Some n -> n = initNode (task n) /\ In (task n) tasks /\ id (task n) = k.
Proof.
  rewrite initNodeMap_get. destruct (JSMap.get (taskMapOf tasks) k) as [t|] eqn:G; [|discriminate].
  simpl. intros H. inversion H; subst. simpl. split; [reflexivity|].
  now apply taskMapOf_get_In.
Qed.

(** A run of both passes, read off the final node map. *)
Lemma calculateCPM_scheduled tasks sortedIds nodes :
  topologicalSort tasks = Some sortedIds -> calculateCPM tasks = Ok nodes ->
  exists nodeMap1 nodeMap,
    forwardPass sortedIds (initNodeMap tasks) = Ok nodeMap1 /\
    backwardPass (projectDurationOf nodeMap1) (successorsMapOf tasks)
      (rev sortedIds) nodeMap1 = Ok nodeMap /\
    fmap early nodeMap = fmap early nodeMap1 /\
    nodes = JSMap.values nodeMap /\ scheduled tasks sortedIds nodeMap /\
    (NoDup (map id tasks) ->
     forall x, In x sortedIds ->
     late_ok (projectDurationOf nodeMap) (successorsMapOf tasks) nodeMap x).
Proof.
  intros Hs H. rewrite (calculateCPM_sorted _ _ Hs) in H.
  destruct (forwardPass sortedIds (initNodeMap tasks)) as [nm1|] eqn:F; [|discriminate].
  simpl in H.
  destruct (backwardPass (projectDurationOf nm1) (successorsMapOf tasks) (rev sortedIds) nm1)
    as [nm2|] eqn:B; [|discriminate].
  simpl in H. inversion H; subst nodes. clear H.
  destruct (topologicalSort_Some _ _ Hs) as (Hnd & Ht & Hall & Hreach).
  destruct (forwardPass_early (taskMapOf tasks) sortedIds [] _ _ (agrees_init tasks)
              Hnd Ht ltac:(intros x []) F) as [S1 E1].
  assert (Hrev : NoDup ([] ++ rev sortedIds)) by (simpl; now apply NoDup_rev).
  destruct (backwardPass_local _ _ (rev sortedIds) [] _ _ Hrev
              ltac:(intros x []) B) as [S2 [E2 L2]].
  assert (Hids : forall x, In x sortedIds <-> In x (map id tasks)).
  { intros x. split.
    - intros Hx. apply taskMapOf_keys. rewrite <- initNodeMap_keys.
      eapply forwardPass_keys; eauto.
    - intros Hx. apply in_map_iff in Hx. destruct Hx as [t [<- Hin]]. now apply Hall. }
  exists nm1, nm2. split; [reflexivity|]. split; [exact B|]. split; [exact E2|].
  split; [reflexivity|]. split.
  - constructor; trivial.
    + rewrite (fmap_eq_keys static _ _ S2), (fmap_eq_keys static _ _ S1).
      apply initNodeMap_keys.
    + eapply agrees_static; [exact S2|]. eapply agrees_static; [exact S1|]. apply agrees_init.
    + intros k n G.
      pose proof (fmap_eq_get static _ _ k S2) as X2.
      pose proof (fmap_eq_get static _ _ k S1) as X1.
      rewrite G in X2. destruct (JSMap.get nm1 k) as [n1|]; [|discriminate].
      destruct (JSMap.get (initNodeMap tasks) k) as [n0|] eqn:G0; [|discriminate].
      apply initNodeMap_duration in G0. destruct G0 as [G0 _].
      simpl in X1, X2. unfold static in X1, X2. inversion X1. inversion X2.
      rewrite G0 in *. simpl in *. congruence.
    + intros x Hx. eapply early_ok_transfer; eauto.
    + intros x Hx. apply (L2 x). simpl. now apply -> in_rev.
  - intros Hu x Hx.
    assert (Hsorted : sorted_by (successorsOf (successorsMapOf tasks)) ([] ++ rev sortedIds)).
    { simpl. apply rev_sorted with (taskMap := taskMapOf tasks); trivial.
      intros y s Hin. apply successorsMapOf_In in Hin.
      destruct Hin as [Hy [t [Hin [<- Hd]]]]. split; [|now apply Hall].
      unfold edge, deps_of. now rewrite (taskMapOf_get_NoDup _ _ Hu Hin). }
    destruct (backwardPass_late _ _ (rev sortedIds) [] _ _ Hrev Hsorted
                ltac:(intros y []) B) as [_ [_ L]].
    rewrite (projectDurationOf_early _ _ E2). apply L. simpl. now apply -> in_rev.
Qed.

(** ** Arithmetic of the passes *)

Lemma Qmax_either (x y : Q) : Qmax x y = x \/ Qmax x y = y.
Proof. unfold Qmax, GenericMinMax.gmax. destruct (x ?= y); auto. Qed.

Lemma Qmin_either (x y : Q) : Qmin x y = x \/ Qmin x y = y.
Proof. unfold Qmin, GenericMinMax.gmin. destruct (x ?= y); auto. Qed.

Lemma Qltb_lt (x y : Q) : Qltb x y = true <-> x < y.
Proof.
  unfold Qltb. rewrite Qlt_alt. destruct (x ?= y); split; congruence.
Qed.

Lemma number_le_refl a : number_le a a.
Proof. destruct a; simpl; [apply Qle_refl | exact I]. Qed.

Lemma number_le_trans a b c : number_le a b -> number_le b c -> number_le a c.
Proof.
  destruct a, b, c; simpl; try tauto. apply Qle_trans.
Qed.

Lemma number_min_le_l a b : number_le (number_min a b) a.
Proof.
  destruct a, b; simpl; trivial; [apply Q.le_min_l | apply Qle_refl].
Qed.

Lemma number_min_le_r a b : number_le (number_min a b) b.
Proof.
  destruct a, b; simpl; trivial; [apply Q.le_min_r | apply Qle_refl].
Qed.

Lemma number_min_either a b : number_min a b = a \/ number_min a b = b.
Proof.
  destruct a as [x|], b as [y|]; simpl; auto.
  destruct (Qmin_either x y) as [->| ->]; auto.
Qed.

Lemma fold_Qmax_ge_acc (l : list PertNode) : forall acc,
  acc <= fold_left (fun pd n => Qmax pd (earlyFinish n)) l acc.
Proof.
  induction l as [|n l IH]; simpl; intros acc; [apply Qle_refl|].
  eapply Qle_trans; [apply Q.le_max_l | apply IH].
Qed.

Section MaxMin.
Variable nm : JSMap.t PertNode.

Lemma foldmax_ge_acc deps : forall acc, acc <= fold_left (maxStep nm) deps acc.
Proof.
  induction deps as [|d deps IH]; simpl; intros acc; [apply Qle_refl|].
  eapply Qle_trans; [|apply IH]. unfold maxStep.
  destruct (JSMap.get nm d); [apply Q.le_max_l | apply Qle_refl].
Qed.

Lemma foldmax_ge deps : forall acc d n,
  In d deps -> JSMap.get nm d = Some n -> earlyFinish n <= fold_left (maxStep nm) deps acc.
Proof.
  induction deps as [|d0 deps IH]; simpl; intros acc d n Hin G; [destruct Hin|].
  destruct Hin as [->|Hin]; [|eapply IH; eauto].
  eapply Qle_trans; [|apply foldmax_ge_acc]. unfold maxStep. rewrite G. apply Q.le_max_r.
Qed.

Lemma foldmax_attained deps : forall acc,
  fold_left (maxStep nm) deps acc = acc \/
  exists d n, In d deps /\ JSMap.get nm d = Some n /\ fold_left (maxStep nm) deps acc = earlyFinish n.
Proof.
  induction deps as [|d deps IH]; simpl; intros acc; [now left|].
  destruct (IH (maxStep nm acc d)) as [E|(d' & n & Hin & G & E)].
  - rewrite E. unfold maxStep. destruct (JSMap.get nm d) as [n|] eqn:G; [|now left].
    destruct (Qmax_either acc (earlyFinish n)) as [->|E']; [now left|].
    right. exists d, n. auto.
  - right. exists d', n. auto.
Qed.

Lemma maxPredecessorEF_nonneg deps : 0 <= maxPredecessorEF nm deps.
Proof. apply foldmax_ge_acc. Qed.

Lemma maxPredecessorEF_ge deps d n :
  In d deps -> JSMap.get nm d = Some n -> earlyFinish n <= maxPredecessorEF nm deps.
Proof. apply foldmax_ge. Qed.

Lemma maxPredecessorEF_attained deps :
  maxPredecessorEF nm deps = 0 \/
  exists d n, In d deps /\ JSMap.get nm d = Some n /\ maxPredecessorEF nm deps = earlyFinish n.
Proof. apply foldmax_attained. Qed.

Lemma foldmin_le_acc succs : forall acc, number_le (fold_left (minStep nm) succs acc) acc.
Proof.
  induction succs as [|s succs IH]; simpl; intros acc; [apply number_le_refl|].
  eapply number_le_trans; [apply IH|]. unfold minStep.
  destruct (JSMap.get nm s); [apply number_min_le_l | apply number_le_refl].
Qed.

Lemma foldmin_le succs : forall acc s n,
  In s succs -> JSMap.get nm s = Some n ->
  number_le (fold_left (minStep nm) succs acc) (lateStart n).
Proof.
  induction succs as [|s0 succs IH]; simpl; intros acc s n Hin G; [destruct Hin|].
  destruct Hin as [->|Hin]; [|eapply IH; eauto].
  eapply number_le_trans; [apply foldmin_le_acc|]. unfold minStep. rewrite G.
  apply number_min_le_r.
Qed.

Lemma foldmin_attained succs : forall acc,
  fold_left (minStep nm) succs acc = acc \/
  exists s n, In s succs /\ JSMap.get nm s = Some n /\ fold_left (minStep nm) succs acc = lateStart n.
Proof.
  induction succs as [|s succs IH]; simpl; intros acc; [now left|].
  destruct (IH (minStep nm acc s)) as [E|(s' & n & Hin & G & E)].
  - rewrite E. unfold minStep. destruct (JSMap.get nm s) as [n|] eqn:G; [|now left].
    destruct (number_min_either acc (lateStart n)) as [->|E']; [now left|].
    right. exists s, n. auto.
  - right. exists s', n. auto.
Qed.

Lemma minSuccessorLS_le succs s n :
  In s succs -> JSMap.get nm s = Some n ->
  number_le (minSuccessorLS nm succs) (lateStart n).
Proof. apply foldmin_le. Qed.

(** Over successors that all have a node with a finite late start, the
    minimum is one of these late starts. *)
Lemma minSuccessorLS_attained succs :
  succs <> [] ->
  (forall s, In s succs -> exists n q, JSMap.get nm s = Some n /\ lateStart n = Num q) ->
  exists s n q, In s succs /\ JSMap.get nm s = Some n /\ lateStart n = Num q /\
                minSuccessorLS nm succs = Num q.
Proof.
  intros Hne Hall. destruct (foldmin_attained succs Infinity) as [E|(s & n & Hin & G & E)].
  - exfalso. destruct succs as [|s succs]; [congruence|].
    destruct (Hall s (or_introl eq_refl)) as (n & q & G & L).
    pose proof (foldmin_le (s :: succs) Infinity s n (or_introl eq_refl) G) as Hle.
    rewrite E, L in Hle. exact Hle.
  - destruct (Hall s Hin) as (n' & q & G' & L). rewrite G in G'. inversion G'; subst n'.
    exists s, n, q. change (minSuccessorLS nm succs) with (fold_left (minStep nm) succs Infinity). rewrite E. auto.
Qed.

Lemma projectDurationOf_ge n :
  In n (JSMap.values nm) -> earlyFinish n <= projectDurationOf nm.
Proof.
  unfold projectDurationOf. generalize 0. induction (JSMap.values nm) as [|n0 l IH];
    simpl; intros acc Hin; [destruct Hin|].
  destruct Hin as [->|Hin]; [|now apply IH].
  eapply Qle_trans; [apply Q.le_max_r | apply fold_Qmax_ge_acc].
Qed.

Lemma projectDurationOf_attained :
  projectDurationOf nm = 0 \/
  exists n, In n (JSMap.values nm) /\ projectDurationOf nm = earlyFinish n.
Proof.
  unfold projectDurationOf. generalize 0. induction (JSMap.values nm) as [|n0 l IH];
    simpl; intros acc; [now left|].
  destruct (IH (Qmax acc (earlyFinish n0))) as [E|(n & Hin & E)].
  - rewrite E. destruct (Qmax_either acc (earlyFinish n0)) as [->|E']; [now left|].
    right. exists n0. auto.
  - right. exists n. auto.
Qed.
End MaxMin.

(** ** The nodes of the result *)

Lemma taskMapOf_NoDup tasks : NoDup (JSMap.keys (taskMapOf tasks)).
Proof. apply (NoDup_keys_buildMap (fun t => t)). constructor. Qed.

(** Whatever the sorter says, the result lists the values of a node map
    that holds the tasks of the task map with their expected durations. *)
Lemma calculateCPM_nodes tasks nodes :
  calculateCPM tasks = Ok nodes ->
  exists nodeMap,
    nodes = JSMap.values nodeMap /\
    JSMap.keys nodeMap = JSMap.keys (taskMapOf tasks) /\
    agrees (taskMapOf tasks) nodeMap /\
    forall k n, JSMap.get nodeMap k = Some n -> duration n = calculateExpectedTime (task n).
Proof.
  intros H. destruct (topologicalSort tasks) as [sortedIds|] eqn:Es.
  - destruct (calculateCPM_scheduled _ _ _ Es H) as (nm1 & nm & _ & _ & _ & E & S & _).
    exists nm. destruct S. auto.
  - rewrite (calculateCPM_unsorted _ Es) in H. inversion H; subst.
    exists (initNodeMap tasks). split; [reflexivity|]. split; [apply initNodeMap_keys|].
    split; [apply agrees_init|]. intros k n G.
    apply initNodeMap_duration in G. destruct G as [G _]. now rewrite G.
Qed.

Lemma agrees_node tasks nm k n :
  agrees (taskMapOf tasks) nm -> JSMap.get nm k = Some n ->
  JSMap.get (taskMapOf tasks) k = Some (task n) /\ In (task n) tasks /\ node_id n = k.
Proof.
  intros A G. pose proof (A k) as E. rewrite G in E. simpl in E. symmetry in E.
  split; [assumption|]. now apply taskMapOf_get_In.
Qed.

Lemma node_ids_keys tasks nm :
  agrees (taskMapOf tasks) nm -> NoDup (JSMap.keys nm) ->
  map node_id (JSMap.values nm) = JSMap.keys nm.
Proof.
  intros A. unfold JSMap.values, JSMap.keys. rewrite map_map.
  assert (H : forall k n, In (k, n) nm -> NoDup (map fst nm) -> JSMap.get nm k = Some n).
  { clear. induction nm as [|[k0 n0] m IH]; simpl; intros k n Hin Hnd; [destruct Hin|].
    inversion Hnd as [|? ? Hk Hnd']; subst. destruct Hin as [E|Hin].
    - inversion E; subst. now rewrite String.eqb_refl.
    - destruct (String.eqb_spec k0 k) as [->|Hne]; [|now apply IH].
      exfalso. apply Hk. change k with (fst (k, n)). now apply in_map. }
  intros Hnd. apply map_ext_in. intros [k n] Hin. simpl.
  apply (agrees_node tasks nm k n A). now apply H.
Qed.

Lemma path_in_tasks tasks x y :
  deps_present tasks -> path (taskMapOf tasks) x y ->
  In x (map id tasks) -> In y (map id tasks).
Proof.
  intros Hp P. induction P as [x|x z y E P IH]; intros Hx; [assumption|].
  apply IH. unfold edge, deps_of in E.
  destruct (JSMap.get (taskMapOf tasks) x) as [t|] eqn:G; [|destruct E].
  apply taskMapOf_get_In in G. destruct G as [Hin _]. exact (Hp t Hin z E).
Qed.

(** With every dependency present the computation returns. *)
Lemma calculateCPM_total tasks :
  deps_present tasks -> exists nodes, calculateCPM tasks = Ok nodes.
Proof.
  intros Hp. destruct (topologicalSort tasks) as [sortedIds|] eqn:Es.
  - rewrite (calculateCPM_sorted _ _ Es).
    destruct (topologicalSort_Some _ _ Es) as (Hnd & Ht & Hall & Hreach).
    assert (Hk : forall x, In x sortedIds -> In x (JSMap.keys (initNodeMap tasks))).
    { intros x Hx. rewrite initNodeMap_keys. apply taskMapOf_keys.
      destruct (Hreach x Hx) as [t [Hin P]].
      eapply path_in_tasks; eauto. now apply in_map. }
    destruct (forwardPass_total _ _ Hk) as [nm1 F]. rewrite F. simpl.
    destruct (forwardPass_early (taskMapOf tasks) sortedIds [] _ _ (agrees_init tasks)
                Hnd Ht ltac:(intros x []) F) as [S1 _].
    destruct (backwardPass_total (projectDurationOf nm1) (successorsMapOf tasks)
                (rev sortedIds) nm1) as [nm2 B].
    { intros x Hx. rewrite (fmap_eq_keys static _ _ S1). apply Hk. now apply in_rev. }
    rewrite B. simpl. eauto.
  - rewrite (calculateCPM_unsorted _ Es). eauto.
Qed.

(** A dependency of a task of the task map that names no task ends the
    computation of an acyclic list with a [TypeError]: the sorter puts the
    missing ID in its order and the forward pass finds no node for it. *)
Lemma calculateCPM_dangling tasks t d :
  acyclic tasks -> JSMap.get (taskMapOf tasks) (id t) = Some t ->
  In d (dependencies t) -> ~ In d (map id tasks) ->
  calculateCPM tasks = Throw TypeError.
Proof.
  intros A G Hd Hn. destruct (topologicalSort_acyclic _ A) as [sortedIds Es].
  rewrite (calculateCPM_sorted _ _ Es).
  destruct (topologicalSort_Some _ _ Es) as (Hnd & Ht & Hall & _).
  assert (Hin : In d sortedIds).
  { pose proof (taskMapOf_get_In _ _ _ G) as [Hin _].
    pose proof (Hall t Hin) as Hx. apply in_split in Hx. destruct Hx as [l1 [l2 E]].
    rewrite E. apply in_or_app. left. apply (Ht _ _ _ E).
    unfold edge, deps_of. now rewrite G. }
  rewrite (forwardPass_throw sortedIds (initNodeMap tasks) d Hin); [reflexivity|].
  rewrite initNodeMap_keys, taskMapOf_keys. assumption.
Qed.

Lemma loopABC_cyclic : cyclic loopABC.
Proof.
  exists "A", "B". split; [cbv; auto|].
  apply path_step with (y := "C"); [cbv; auto|].
  apply path_step with (y := "A"); [cbv; auto | apply path_refl].
Qed.

Lemma scenario_sorted : topologicalSort scenario = Some ["A"; "B"; "C"; "D"].
Proof. vm_compute. reflexivity. Qed.

Lemma scenario_acyclic : acyclic scenario.
Proof. exact (topologicalSort_Some_acyclic _ _ scenario_sorted). Qed.

Lemma scenario_NoDup : NoDup (map id scenario).
Proof.
  simpl. repeat constructor; simpl; intuition discriminate.
Qed.

Lemma scenario_deps_present : deps_present scenario.
Proof.
  intros t Ht d Hd. simpl in Ht.
  repeat (destruct Ht as [<-|Ht]; [simpl in Hd; simpl; intuition|]). destruct Ht.
Qed.

(** ** Bounds on the late times *)

(** Induction along a sorted list. *)
Lemma sorted_by_ind (next : string -> list string) (P : string -> Prop) l :
  sorted_by next l ->
  (forall x, In x l -> (forall d, In d (next x) -> P d) -> P x) ->
  forall x, In x l -> P x.
Proof.
  induction l as [|y l IH] using rev_ind; intros Hs Hstep x Hx; [destruct Hx|].
  assert (Hs' : sorted_by next l).
  { intros l1 z l2 E d Hd. apply (Hs l1 z (l2 ++ [y])); [|assumption].
    rewrite E, <- app_assoc. reflexivity. }
  assert (Hl : forall z, In z l -> P z).
  { apply IH; [assumption|]. intros z Hz Hd. apply Hstep; [|assumption].
    apply in_or_app. now left. }
  apply in_app_or in Hx. destruct Hx as [Hx|[<-|[]]]; [now apply Hl|].
  apply Hstep; [apply in_or_app; right; now left|].
  intros d Hd. apply Hl. exact (Hs l y [] eq_refl d Hd).
Qed.

Section Bounds.
Variables (tasks : list PertTask) (sortedIds : list string) (nm : JSMap.t PertNode).
Hypothesis Hsch : scheduled tasks sortedIds nm.
Hypothesis Hunique : NoDup (map id tasks).
Hypothesis Hlate : forall x, In x sortedIds ->
  late_ok (projectDurationOf nm) (successorsMapOf tasks) nm x.

Lemma scheduled_NoDup_keys : NoDup (JSMap.keys nm).
Proof. rewrite (sch_keys _ _ _ Hsch). apply taskMapOf_NoDup. Qed.

Lemma scheduled_get x : In x sortedIds -> exists n, JSMap.get nm x = Some n.
Proof. intros Hx. destruct (sch_early _ _ _ Hsch x Hx) as [n [G _]]. eauto. Qed.

Lemma scheduled_key x n : JSMap.get nm x = Some n -> In x sortedIds.
Proof.
  intros G. apply (sch_ids _ _ _ Hsch). apply taskMapOf_keys.
  rewrite <- (sch_keys _ _ _ Hsch). eapply get_Some_keys; eauto.
Qed.

Lemma successor_edge x s :
  In s (successorsOf (successorsMapOf tasks) x) ->
  edge (taskMapOf tasks) s x /\ In s sortedIds.
Proof.
  intros Hin. apply successorsMapOf_In in Hin. destruct Hin as [Hx [t [Hin [<- Hd]]]].
  split.
  - unfold edge, deps_of. now rewrite (taskMapOf_get_NoDup _ _ Hunique Hin).
  - apply (sch_ids _ _ _ Hsch). now apply in_map.
Qed.

Lemma edge_successor s x :
  edge (taskMapOf tasks) s x -> In x sortedIds ->
  In s (successorsOf (successorsMapOf tasks) x).
Proof.
  unfold edge, deps_of. intros E Hx.
  destruct (JSMap.get (taskMapOf tasks) s) as [t|] eqn:G; [|destruct E].
  apply taskMapOf_get_In in G. destruct G as [Hin <-].
  apply successorsMapOf_In. split; [now apply (sch_ids _ _ _ Hsch)|]. exists t. auto.
Qed.

Lemma rev_sortedIds_sorted :
  sorted_by (successorsOf (successorsMapOf tasks)) (rev sortedIds).
Proof.
  apply rev_sorted with (taskMap := taskMapOf tasks);
    [apply Hsch | apply Hsch | exact successor_edge].
Qed.

(** The early start of a task is at least the early finish of each of
    its dependencies. *)
Lemma early_start_ge x n d m :
  JSMap.get nm x = Some n -> JSMap.get nm d = Some m ->
  edge (taskMapOf tasks) x d -> earlyFinish m <= earlyStart n.
Proof.
  intros G Gd E. destruct (sch_early _ _ _ Hsch x (scheduled_key _ _ G)) as [n' [G' [E1 _]]].
  rewrite G in G'. inversion G'; subst n'. rewrite E1.
  eapply maxPredecessorEF_ge; eauto.
Qed.

Lemma early_finish_eq x n :
  JSMap.get nm x = Some n -> earlyFinish n = earlyStart n + duration n.
Proof.
  intros G. destruct (sch_early _ _ _ Hsch x (scheduled_key _ _ G)) as [n' [G' [_ E2]]].
  rewrite G in G'. now inversion G'; subst n'.
Qed.

(** Every late finish is finite and not before the early finish. *)
Lemma late_finish_bound x :
  In x sortedIds ->
  exists n lf, JSMap.get nm x = Some n /\ lateFinish n = Num lf /\ earlyFinish n <= lf.
Proof.
  intros Hx. apply in_rev in Hx. revert x Hx.
  apply (sorted_by_ind (successorsOf (successorsMapOf tasks))); [exact rev_sortedIds_sorted|].
  intros x Hx IH. apply in_rev in Hx.
  destruct (Hlate x Hx) as [n [G [L E]]]. exists n.
  destruct (successorsOf (successorsMapOf tasks) x) as [|s0 l] eqn:Es.
  - exists (projectDurationOf nm). split; [assumption|]. split; [assumption|].
    apply projectDurationOf_ge. apply In_values_get; [apply scheduled_NoDup_keys | eauto].
  - assert (Hall : forall s, In s (s0 :: l) ->
              exists ns q, JSMap.get nm s = Some ns /\ lateStart ns = Num q /\
                           earlyFinish n <= q).
    { intros s Hs. destruct (IH s Hs) as (ns & lf & Gs & Ls & Hle).
      rewrite <- Es in Hs. destruct (successor_edge _ _ Hs) as [He _].
      destruct (Hlate s (scheduled_key _ _ Gs)) as [ns' [Gs' [[L1 _] _]]].
      rewrite Gs in Gs'. inversion Gs'; subst ns'.
      exists ns, (lf - duration ns). split; [assumption|].
      split; [rewrite L1, Ls; reflexivity|].
      pose proof (early_start_ge _ _ _ _ Gs G He) as H1.
      pose proof (early_finish_eq _ _ Gs) as H2. rewrite H2 in Hle. lra. }
    destruct (minSuccessorLS_attained nm (s0 :: l)) as (s & ns & q & Hs & Gs & Ls & Em);
      [discriminate | |].
    { intros s Hs. destruct (Hall s Hs) as (ns & q & Gs & Ls & _). eauto. }
    exists q. split; [assumption|]. split; [congruence|].
    destruct (Hall s Hs) as (ns' & q' & Gs' & Ls' & Hle).
    rewrite Gs in Gs'. inversion Gs'; subst ns'. congruence.
Qed.

(** Slack is finite and never negative. *)
Lemma slack_nonneg x n :
  JSMap.get nm x = Some n -> exists sl, slack n = Num sl /\ 0 <= sl.
Proof.
  intros G. pose proof (scheduled_key _ _ G) as Hx.
  destruct (late_finish_bound x Hx) as (n' & lf & G' & Lf & Hle).
  rewrite G in G'. inversion G'; subst n'.
  destruct (Hlate x Hx) as [n'' [G'' [[L1 [L2 _]] _]]].
  rewrite G in G''. inversion G''; subst n''.
  exists (lf - duration n - earlyStart n). split.
  - rewrite L2, L1, Lf. reflexivity.
  - rewrite (early_finish_eq _ _ G) in Hle. lra.
Qed.
End Bounds.

(** A node of the result, read in the final node map. *)
Lemma scheduled_node tasks sortedIds nm n :
  scheduled tasks sortedIds nm -> In n (JSMap.values nm) ->
  JSMap.get nm (node_id n) = Some n /\ In (node_id n) sortedIds /\
  node_deps n = deps_of (taskMapOf tasks) (node_id n) /\ In (task n) tasks.
Proof.
  intros S Hn. apply In_values_get in Hn; [|eapply scheduled_NoDup_keys; eauto].
  destruct Hn as [k G]. destruct (agrees_node _ _ _ _ (sch_agrees _ _ _ S) G) as (Gt & Hin & Hid).
  rewrite Hid. split; [assumption|]. split; [eapply scheduled_key; eauto|].
  split; [eapply agrees_deps; eauto; apply S | assumption].
Qed.

Lemma scheduled_value tasks sortedIds nm k n :
  scheduled tasks sortedIds nm -> JSMap.get nm k = Some n ->
  In n (JSMap.values nm) /\ node_id n = k.
Proof.
  intros S G. split.
  - apply In_values_get; [eapply scheduled_NoDup_keys; eauto | eauto].
  - now destruct (agrees_node _ _ _ _ (sch_agrees _ _ _ S) G) as (_ & _ & Hid).
Qed.

Lemma scenario_result : calculateCPM scenario = Ok scenario_nodes.
Proof. vm_compute. reflexivity. Qed.

(** With durations that are not negative, no early time is negative and
    the project duration is the early finish of some node. *)
Lemma early_finish_nonneg tasks sortedIds nm k n :
  scheduled tasks sortedIds nm ->
  (forall t, In t tasks -> 0 <= calculateExpectedTime t) ->
  JSMap.get nm k = Some n -> 0 <= duration n /\ 0 <= earlyStart n /\ 0 <= earlyFinish n.
Proof.
  intros S Hpos G.
  destruct (agrees_node _ _ _ _ (sch_agrees _ _ _ S) G) as (_ & Hin & _).
  pose proof (Hpos _ Hin) as Hd. rewrite <- (sch_duration _ _ _ S _ _ G) in Hd.
  destruct (sch_early _ _ _ S k (scheduled_key _ _ _ S _ _ G)) as [n' [G' [E1 E2]]].
  rewrite G in G'. inversion G'; subst n'.
  pose proof (maxPredecessorEF_nonneg nm (deps_of (taskMapOf tasks) k)) as Hs.
  rewrite <- E1 in Hs. rewrite E2. repeat split; lra.
Qed.

Lemma project_duration_attained tasks sortedIds nm :
  scheduled tasks sortedIds nm ->
  (forall t, In t tasks -> 0 <= calculateExpectedTime t) ->
  JSMap.values nm <> [] ->
  exists n, In n (JSMap.values nm) /\ earlyFinish n == projectDurationOf nm.
Proof.
  intros S Hpos Hne. destruct (projectDurationOf_attained nm) as [E|(n & Hn & E)].
  - destruct (JSMap.values nm) as [|n l] eqn:Ev; [congruence|].
    assert (Hn : In n (JSMap.values nm)) by (rewrite Ev; now left).
    exists n. split; [rewrite <- Ev; assumption|].
    pose proof (projectDurationOf_ge nm n Hn) as Hle. rewrite E in *.
    destruct (scheduled_node _ _ _ _ S Hn) as (G & _).
    destruct (early_finish_nonneg _ _ _ _ _ S Hpos G) as (_ & _ & H0). lra.
  - exists n. split; [assumption|]. rewrite E. reflexivity.
Qed.

(** ** The critical path *)

Lemma linked_snoc front a b :
  linked (front ++ [a]) -> In (node_id a) (node_deps b) -> linked ((front ++ [a]) ++ [b]).
Proof.
  induction front as [|c front IH]; simpl; intros L H; [auto|].
  destruct (front ++ [a]) as [|c' l'] eqn:E; [destruct front; discriminate|].
  simpl. destruct L as [L1 L2]. split; [assumption|]. now apply IH.
Qed.

Lemma sum_durations_snoc l b : sum_durations (l ++ [b]) == sum_durations l + duration b.
Proof.
  induction l as [|a l IH]; simpl; [ring|]. rewrite IH. ring.
Qed.

Lemma tight_critical n :
  late_local n -> earlyFinish n = earlyStart n + duration n -> tight n ->
  isCritical n = true.
Proof.
  intros (L1 & L2 & L3) E [lf [Lf Hlf]]. rewrite L3, L2, L1, Lf. simpl.
  apply Qltb_lt. rewrite E in Hlf.
  assert (H0 : lf - duration n - earlyStart n == 0) by lra.
  rewrite (Qabs_wd _ _ H0). reflexivity.
Qed.

Section CriticalPath.
Variables (tasks : list PertTask) (sortedIds : list string) (nm : JSMap.t PertNode).
Hypothesis Hsch : scheduled tasks sortedIds nm.
Hypothesis Hunique : NoDup (map id tasks).
Hypothesis Hlate : forall x, In x sortedIds ->
  late_ok (projectDurationOf nm) (successorsMapOf tasks) nm x.
Hypothesis Hpos : forall t, In t tasks -> 0 <= calculateExpectedTime t.

Lemma node_late_local x n : JSMap.get nm x = Some n -> late_local n.
Proof.
  intros G. destruct (Hlate x (scheduled_key _ _ _ Hsch _ _ G)) as [n' [G' [L _]]].
  rewrite G in G'. now inversion G'; subst n'.
Qed.

Lemma node_critical x n : JSMap.get nm x = Some n -> tight n -> isCritical n = true.
Proof.
  intros G T. apply tight_critical; [eapply node_late_local; eauto | | assumption].
  eapply early_finish_eq; eauto.
Qed.

(** A dependency whose early finish is the early start of [n] is tight
    when [n] is. *)
Lemma tight_dependency x n d p :
  JSMap.get nm x = Some n -> JSMap.get nm d = Some p ->
  edge (taskMapOf tasks) x d -> earlyFinish p == earlyStart n -> tight n -> tight p.
Proof.
  intros G Gd E Heq [lf [Lf Hlf]].
  pose proof (scheduled_key _ _ _ Hsch _ _ G) as Hx.
  pose proof (scheduled_key _ _ _ Hsch _ _ Gd) as Hd.
  destruct (late_finish_bound _ _ _ Hsch Hunique Hlate d Hd) as (p' & lfp & Gp & Lfp & Hle).
  rewrite Gd in Gp. inversion Gp; subst p'.
  exists lfp. split; [assumption|]. apply Qle_antisym; [|assumption].
  pose proof (edge_successor _ _ _ Hsch _ _ E Hd) as Hs.
  destruct (Hlate d Hd) as [p' [Gp' [_ Ef]]]. rewrite Gd in Gp'. inversion Gp'; subst p'.
  assert (Em : lateFinish p = minSuccessorLS nm (successorsOf (successorsMapOf tasks) d)).
  { destruct (successorsOf (successorsMapOf tasks) d); [destruct Hs | exact Ef]. }
  pose proof (minSuccessorLS_le nm _ x n Hs G) as Hmin.
  destruct (node_late_local _ _ G) as (L1 & _).
  rewrite <- Em, Lfp, L1, Lf in Hmin. simpl in Hmin.
  rewrite (early_finish_eq _ _ _ Hsch _ _ G) in Hlf. lra.
Qed.

(** Some dependency of a node with dependencies finishes exactly when
    the node starts. *)
Lemma early_start_attained x n :
  JSMap.get nm x = Some n -> deps_of (taskMapOf tasks) x <> [] ->
  exists d p, edge (taskMapOf tasks) x d /\ JSMap.get nm d = Some p /\
              earlyFinish p == earlyStart n.
Proof.
  intros G Hne. pose proof (scheduled_key _ _ _ Hsch _ _ G) as Hx.
  destruct (sch_early _ _ _ Hsch x Hx) as [n' [G' [E1 _]]].
  rewrite G in G'. inversion G'; subst n'.
  destruct (maxPredecessorEF_attained nm (deps_of (taskMapOf tasks) x))
    as [E0|(d & p & Hin & Gd & Ed)].
  - destruct (deps_of (taskMapOf tasks) x) as [|d l] eqn:Ed; [congruence|].
    assert (He : edge (taskMapOf tasks) x d) by (unfold edge; rewrite Ed; now left).
    assert (Hd : In d sortedIds).
    { apply in_split in Hx. destruct Hx as [l1 [l2 El]]. rewrite El.
      apply in_or_app. left. exact (sch_topo _ _ _ Hsch _ _ _ El _ He). }
    destruct (scheduled_get _ _ _ Hsch d Hd) as [p Gd].
    exists d, p. split; [assumption|]. split; [assumption|].
    pose proof (early_start_ge _ _ _ Hsch _ _ _ _ G Gd He) as Hle.
    destruct (early_finish_nonneg _ _ _ _ _ Hsch Hpos Gd) as (_ & _ & H0).
    rewrite E1, E0 in *. lra.
  - exists d, p. split; [exact Hin|]. split; [assumption|]. rewrite E1, Ed. reflexivity.
Qed.

(** Every tight node ends a chain of critical nodes that starts at a node
    without dependencies and whose durations add up to its early finish. *)
Lemma critical_chain_to x :
  In x sortedIds ->
  forall n, JSMap.get nm x = Some n -> tight n ->
  exists front, critical_chain (JSMap.values nm) (front ++ [n]) /\
                sum_durations (front ++ [n]) == earlyFinish n.
Proof.
  revert x.
  apply (sorted_by_ind (deps_of (taskMapOf tasks))
           (fun x => forall n, JSMap.get nm x = Some n -> tight n ->
              exists front, critical_chain (JSMap.values nm) (front ++ [n]) /\
                            sum_durations (front ++ [n]) == earlyFinish n));
    [exact (sch_topo _ _ _ Hsch)|].
  intros x Hx IH n G T.
  pose proof (node_critical _ _ G T) as Hc.
  destruct (scheduled_value _ _ _ _ _ Hsch G) as [Hn Hid].
  pose proof (agrees_deps _ _ _ _ (sch_agrees _ _ _ Hsch) G) as Hdeps.
  pose proof (early_finish_eq _ _ _ Hsch _ _ G) as Ef.
  destruct (deps_of (taskMapOf tasks) x) as [|d0 l0] eqn:Ed.
  - exists []. simpl. split.
    + split; [intros c [<-|[]]; auto|]. split; [exact I|]. exists n, []. auto.
    + destruct (sch_early _ _ _ Hsch x Hx) as [n' [G' [E1 _]]].
      rewrite G in G'. inversion G'; subst n'. rewrite Ed in E1.
      rewrite Ef, E1. unfold maxPredecessorEF. simpl. ring.
  - destruct (early_start_attained x n G) as (d & p & He & Gd & Heq); [congruence|].
    pose proof (tight_dependency _ _ _ _ G Gd He Heq T) as Tp.
    assert (Hd : In d (deps_of (taskMapOf tasks) x)) by exact He.
    rewrite Ed in Hd.
    destruct (IH d Hd p Gd Tp) as [front [(Hall & Hl & first & rest & Efr & Hfirst) Hsum]].
    destruct (scheduled_value _ _ _ _ _ Hsch Gd) as [Hp Hidp].
    exists (front ++ [p]). split.
    + split.
      * intros c Hin. apply in_app_or in Hin. destruct Hin as [Hin|[<-|[]]]; auto.
      * split.
        -- apply linked_snoc; [assumption|]. rewrite Hidp, Hdeps. exact Hd.
        -- exists first, (rest ++ [n]). rewrite Efr. split; [reflexivity | assumption].
    + rewrite sum_durations_snoc, Hsum, Heq, Ef. reflexivity.
Qed.

(** From a node that finishes with the project, following successors
    leads to one without successors that does so too. *)
Lemma project_end x :
  In x (rev sortedIds) ->
  forall n, JSMap.get nm x = Some n -> earlyFinish n == projectDurationOf nm ->
  exists y ny, JSMap.get nm y = Some ny /\
               successorsOf (successorsMapOf tasks) y = [] /\
               earlyFinish ny == projectDurationOf nm.
Proof.
  revert x.
  apply (sorted_by_ind (successorsOf (successorsMapOf tasks))
           (fun x => forall n, JSMap.get nm x = Some n ->
              earlyFinish n == projectDurationOf nm ->
              exists y ny, JSMap.get nm y = Some ny /\
                           successorsOf (successorsMapOf tasks) y = [] /\
                           earlyFinish ny == projectDurationOf nm));
    [exact (rev_sortedIds_sorted _ _ _ Hsch Hunique)|].
  intros x Hx IH n G Heq.
  destruct (successorsOf (successorsMapOf tasks) x) as [|s l] eqn:Es; [eauto|].
  assert (Hs : In s (successorsOf (successorsMapOf tasks) x)) by (rewrite Es; now left).
  destruct (successor_edge _ _ _ Hsch Hunique _ _ Hs) as [He Hin].
  destruct (scheduled_get _ _ _ Hsch s Hin) as [ns Gs].
  apply (IH s (or_introl eq_refl) ns Gs).
  pose proof (early_start_ge _ _ _ Hsch _ _ _ _ Gs G He) as H1.
  destruct (early_finish_nonneg _ _ _ _ _ Hsch Hpos Gs) as (Hd & _ & _).
  pose proof (early_finish_eq _ _ _ Hsch _ _ Gs) as H2.
  destruct (scheduled_value _ _ _ _ _ Hsch Gs) as [Hv _].
  pose proof (projectDurationOf_ge nm ns Hv) as H3.
  rewrite H2 in *. lra.
Qed.

Lemma critical_path_found :
  JSMap.values nm <> [] ->
  exists front last,
    critical_chain (JSMap.values nm) (front ++ [last]) /\
    (forall t, In t tasks -> ~ In (node_id last) (dependencies t)) /\
    sum_durations (front ++ [last]) == projectDurationOf nm /\
    earlyFinish last == projectDurationOf nm.
Proof.
  intros Hne.
  destruct (project_duration_attained _ _ _ Hsch Hpos Hne) as (n & Hn & Heq).
  destruct (scheduled_node _ _ _ _ Hsch Hn) as (G & Hx & _).
  destruct (project_end _ (proj1 (in_rev _ _) Hx) n G Heq) as (y & ny & Gy & Hnil & Hy).
  pose proof (scheduled_key _ _ _ Hsch _ _ Gy) as Hin.
  assert (Ty : tight ny).
  { destruct (Hlate y Hin) as [n' [G' [_ Lf]]]. rewrite Gy in G'. inversion G'; subst n'.
    rewrite Hnil in Lf. exists (projectDurationOf nm). split; [assumption|].
    symmetry. exact Hy. }
  destruct (critical_chain_to y Hin ny Gy Ty) as [front [Hc Hsum]].
  exists front, ny. split; [assumption|].
  destruct (scheduled_value _ _ _ _ _ Hsch Gy) as [_ Hid].
  split; [|split; [rewrite Hsum; exact Hy | exact Hy]].
  rewrite Hid. apply successorsMapOf_nil; [assumption|].
  now apply (sch_ids _ _ _ Hsch).
Qed.
End CriticalPath.




Lemma scenario_nonneg : forall t, In t scenario -> 0 <= calculateExpectedTime t.
Proof.
  intros t Ht. simpl in Ht.
  repeat (destruct Ht as [<-|Ht]; [vm_compute; discriminate|]). destruct Ht.
Qed.

(** *** Dates *)

Section CalendarFacts.
Local Open Scope Z_scope.

Lemma doy_range doe : 0 <= doe <= 146096 ->
  let yoe := (doe - doe / 1460 + doe / 36524 - doe / 146096) / 365 in
  0 <= yoe <= 399 /\ 0 <= doe - (365 * yoe + yoe / 4 - yoe / 100) <= 365.
Proof. intros H. cbv zeta. zdiv. Qed.

Lemma month_range doy : 0 <= doy <= 365 ->
  let mp := (5 * doy + 2) / 153 in
  0 <= mp <= 11 /\ 1 <= doy - (153 * mp + 2) / 5 + 1 <= 31.
Proof. intros H. cbv zeta. zdiv. Qed.

Lemma civil_from_days_spec z :
  exists era yoe doy mp y m d,
    0 <= yoe <= 399 /\ 0 <= doy <= 365 /\ 0 <= mp <= 11 /\
    mp = (5 * doy + 2) / 153 /\
    z + 719468 = era * 146097 + (yoe * 365 + yoe / 4 - yoe / 100 + doy) /\
    m = (if mp <? 10 then mp + 3 else mp - 9) /\
    y = (if m <=? 2 then yoe + era * 400 + 1 else yoe + era * 400) /\
    d = doy - (153 * mp + 2) / 5 + 1 /\
    Calendar.civil_from_days z = (y, m, d).
Proof.
  unfold Calendar.civil_from_days. cbv zeta.
  set (era := (z + 719468) / 146097).
  set (doe := z + 719468 - era * 146097).
  assert (Hdoe : 0 <= doe <= 146096) by (subst doe era; zdiv).
  destruct (doy_range doe Hdoe) as [Hy Hd]. cbv zeta in Hy, Hd.
  set (yoe := (doe - doe / 1460 + doe / 36524 - doe / 146096) / 365) in *.
  set (doy := doe - (365 * yoe + yoe / 4 - yoe / 100)) in *.
  destruct (month_range doy Hd) as [Hm _]. cbv zeta in Hm.
  exists era, yoe, doy, ((5 * doy + 2) / 153).
  do 3 eexists. repeat (split; [try reflexivity; lia|]). reflexivity.
Qed.

Lemma civil_month_range z y m d :
  Calendar.civil_from_days z = (y, m, d) -> 1 <= m <= 12 /\ 1 <= d <= 31.
Proof.
  destruct (civil_from_days_spec z)
    as (era & yoe & doy & mp & y0 & m0 & d0 & Hy & Hd & Hm & Emp & Ez & Em & Ey & Ed & E).
  rewrite E. intros H. injection H as <- <- <-.
  split.
  - rewrite Em. destruct (mp <? 10) eqn:C; [apply Z.ltb_lt in C | apply Z.ltb_ge in C]; lia.
  - rewrite Ed, Emp. apply (month_range doy Hd).
Qed.

(** The day number of the date of a day number is that day number. *)
Lemma days_from_civil_of_days z y m d :
  Calendar.civil_from_days z = (y, m, d) -> Calendar.days_from_civil y m d = z.
Proof.
  destruct (civil_from_days_spec z)
    as (era & yoe & doy & mp & y0 & m0 & d0 & Hy & Hd & Hm & Emp & Ez & Em & Ey & Ed & E).
  rewrite E. intros H. injection H as <- <- <-. clear E.
  unfold Calendar.days_from_civil. cbv zeta.
  assert (Hmp : (if 2 <? m0 then m0 - 3 else m0 + 9) = mp).
  { rewrite Em. destruct (mp <? 10) eqn:C; [apply Z.ltb_lt in C | apply Z.ltb_ge in C].
    - destruct (2 <? mp + 3) eqn:C2; [lia | apply Z.ltb_ge in C2; lia].
    - destruct (2 <? mp - 9) eqn:C2; [apply Z.ltb_lt in C2; lia | lia]. }
  assert (HY : (if m0 <=? 2 then y0 - 1 else y0) = yoe + era * 400).
  { rewrite Ey. destruct (m0 <=? 2); lia. }
  rewrite Hmp, HY.
  assert (Hera : (yoe + era * 400) / 400 = era) by zdiv.
  rewrite Hera, Ed.
  replace (yoe + era * 400 - era * 400) with yoe by lia. lia.
Qed.

Lemma days_from_civil_day y m d k :
  Calendar.days_from_civil y m d + k = Calendar.days_from_civil y m (d + k).
Proof. unfold Calendar.days_from_civil. cbv zeta. lia. Qed.

(** [setDate(getDate() + k)] moves a date by [k] days, at any time of day
    and in any zone. *)
Lemma setDate_getDate tz t k :
  Calendar.setDate tz t (Calendar.getDate tz t + k)
  = Calendar.TimeClip (t + k * Calendar.msPerDay).
Proof.
  unfold Calendar.setDate, Calendar.getDate.
  destruct (Calendar.civil_from_days (Calendar.LocalTime tz t / Calendar.msPerDay))
    as [[y m] d] eqn:E.
  destruct (civil_month_range _ _ _ _ E) as [Hm _].
  pose proof (days_from_civil_of_days _ _ _ _ E) as R.
  f_equal. unfold Calendar.MakeDay.
  replace ((m - 1) / 12) with 0 by zdiv.
  replace ((m - 1) mod 12 + 1) with m by zdiv.
  replace (y + 0) with y by lia.
  replace (Calendar.days_from_civil y m 1 + (d + k) - 1)
    with (Calendar.days_from_civil y m 1 + (d - 1) + k) by lia.
  rewrite days_from_civil_day. replace (1 + (d - 1)) with d by lia. rewrite R.
  unfold Calendar.UTC, Calendar.LocalTime, Calendar.msPerDay, Calendar.msPerMinute in *.
  zdiv.
Qed.

Lemma digit_not_T n : Ascii.eqb (Calendar.digit n) "T" = false.
Proof.
  unfold Calendar.digit. assert (H : 0 <= n mod 10 < 10) by (apply Z.mod_pos_bound; lia).
  assert (C : n mod 10 = 0 \/ n mod 10 = 1 \/ n mod 10 = 2 \/ n mod 10 = 3 \/
              n mod 10 = 4 \/ n mod 10 = 5 \/ n mod 10 = 6 \/ n mod 10 = 7 \/
              n mod 10 = 8 \/ n mod 10 = 9) by lia.
  repeat (destruct C as [C|C]; [rewrite C; reflexivity|]). rewrite C. reflexivity.
Qed.

Lemma noT_app s1 s2 :
  Calendar.noT (s1 ++ s2)%string = (Calendar.noT s1 && Calendar.noT s2)%bool.
Proof.
  induction s1 as [|c s1 IH]; simpl; [reflexivity|]. rewrite IH. now rewrite andb_assoc.
Qed.

Lemma noT_pad2 n : Calendar.noT (Calendar.pad2 n) = true.
Proof. unfold Calendar.pad2. simpl. now rewrite !digit_not_T. Qed.

Lemma before_T_noT s1 s2 :
  Calendar.noT s1 = true ->
  Calendar.before_T (s1 ++ s2)%string = (s1 ++ Calendar.before_T s2)%string.
Proof.
  induction s1 as [|c s1 IH]; simpl; intros H; [reflexivity|].
  apply andb_true_iff in H. destruct H as [H1 H2].
  apply negb_true_iff in H1. rewrite H1. f_equal. now apply IH.
Qed.

Lemma append_empty_r s : (s ++ "")%string = s.
Proof. induction s as [|c s IH]; simpl; [reflexivity | now rewrite IH]. Qed.

Lemma noT_iso_year y : Calendar.noT (Calendar.iso_year y) = true.
Proof.
  unfold Calendar.iso_year, Calendar.pad6, Calendar.pad4.
  destruct ((0 <=? y) && (y <=? 9999))%bool; [|destruct (y <? 0)];
    repeat (rewrite ?noT_app, ?noT_pad2; simpl); reflexivity.
Qed.

(** One end of a range: the day of [base] in UTC moved by the rounded
    offset, or a [RangeError] when that leaves the range of dates. *)
Lemma projectDate_in_range tz base offset :
  Calendar.in_range (base + Calendar.Math_round offset * Calendar.msPerDay) ->
  Calendar.projectDate tz base offset
  = Ok (Calendar.isoDate ((base + Calendar.Math_round offset * Calendar.msPerDay)
                          / Calendar.msPerDay)).
Proof.
  intros H. unfold Calendar.projectDate. rewrite setDate_getDate.
  unfold Calendar.TimeClip. unfold Calendar.in_range in H. apply Z.leb_le in H. rewrite H.
  unfold Calendar.toISOString, Calendar.isoDate.
  destruct (Calendar.civil_from_days _) as [[y m] d]. unfold bind. f_equal.
  rewrite (before_T_noT _ _ (noT_iso_year y)).
  rewrite (before_T_noT "-" _ eq_refl).
  rewrite (before_T_noT _ _ (noT_pad2 m)).
  rewrite (before_T_noT "-" _ eq_refl).
  rewrite (before_T_noT _ _ (noT_pad2 d)).
  simpl Calendar.before_T. now rewrite append_empty_r.
Qed.

Lemma projectDate_out_of_range tz base offset :
  ~ Calendar.in_range (base + Calendar.Math_round offset * Calendar.msPerDay) ->
  Calendar.projectDate tz base offset = Throw RangeError.
Proof.
  intros H. unfold Calendar.projectDate. rewrite setDate_getDate.
  unfold Calendar.TimeClip. unfold Calendar.in_range in H. apply Z.leb_nle in H. now rewrite H.
Qed.




End CalendarFacts.

(** For an acyclic list with distinct IDs the computation returns exactly
    when every dependency names a task of the list. *)
Lemma calculateCPM_returns_iff tasks :
  NoDup (map id tasks) -> acyclic tasks ->
  ((exists nodes, calculateCPM tasks = Ok nodes) <-> deps_present tasks).
Proof.
  intros Hu A. split; [|apply calculateCPM_total].
  intros [nodes H] t Ht d Hd.
  destruct (in_dec string_dec d (map id tasks)) as [Hin|Hn]; [assumption|].
  rewrite (calculateCPM_dangling tasks t d A (taskMapOf_get_NoDup _ _ Hu Ht) Hd Hn) in H.
  discriminate.
Qed.

(** The guards of the code do what they are there for: a dependency
    without a node adds nothing to the maximum of the forward pass, and the
    successors map has no entry but for the IDs of the tasks. *)
Lemma maxPredecessorEF_missing nm d deps :
  JSMap.get nm d = None -> maxPredecessorEF nm (d :: deps) = maxPredecessorEF nm deps.
Proof. intros H. unfold maxPredecessorEF. simpl. now rewrite H. Qed.

Lemma successorsMapOf_keys tasks :
  JSMap.keys (successorsMapOf tasks) = JSMap.keys (taskMapOf tasks).
Proof.
  unfold successorsMapOf. rewrite addSuccessors_keys. apply emptySuccessors_keys.
Qed.

(** The schedule of the scenario of the specification: A, B and D are
    critical, C is not, and the project takes 21/2. *)
Example scenario_schedule :
  map (fun n => (node_id n, Qred (duration n), Qred (earlyStart n),
                 Qred (earlyFinish n), isCritical n)) scenario_nodes
  = [ ("A", 2, 0, 2, true);
      ("B", 10 # 3, 2, 16 # 3, true);
      ("C", 13 # 6, 2, 25 # 6, false);
      ("D", 31 # 6, 16 # 3, 21 # 2, true) ].
Proof. vm_compute. reflexivity. Qed.

(** ** The schedule in exact arithmetic

    What the passes would give if no operation rounded: the two statements
    below are about the first embedding, over the rationals.  Binary64
    keeps neither (lemmas [slack_rounding] and [no_critical_node]). *)

(** Over the rationals each node has slack = lateStart - earlyStart
    = lateFinish - earlyFinish, and for an acyclic list with distinct IDs
    no slack is negative. *)
Lemma exact_slack_symmetry (tasks : list PertTask) (nodes : list PertNode) :
  calculateCPM tasks = Ok nodes ->
  (forall n, In n nodes ->
     number_eq (slack n) (number_sub (lateStart n) (earlyStart n)) /\
     number_eq (slack n) (number_sub (lateFinish n) (earlyFinish n))) /\
  (acyclic tasks -> NoDup (map id tasks) ->
   forall n, In n nodes -> number_le (Num 0) (slack n)).
Proof.
  intros H. destruct (topologicalSort tasks) as [sortedIds|] eqn:Es.
  - destruct (calculateCPM_scheduled _ _ _ Es H) as (nm1 & nm & _ & _ & _ & -> & S & L).
    split.
    + intros n Hn. destruct (scheduled_node _ _ _ _ S Hn) as (G & Hx & _).
      destruct (sch_local _ _ _ S _ Hx) as [n' [G' [L1 [L2 _]]]].
      rewrite G in G'. inversion G'; subst n'.
      destruct (sch_early _ _ _ S _ Hx) as [n' [G'' [_ E2]]].
      rewrite G in G''. inversion G''; subst n'.
      rewrite L2, L1, E2. destruct (lateFinish n) as [lf|]; simpl; [|tauto].
      split; [reflexivity | ring].
    + intros _ Hu n Hn. destruct (scheduled_node _ _ _ _ S Hn) as (G & _).
      destruct (slack_nonneg tasks sortedIds nm S Hu (L Hu) _ _ G) as [sl [E Hle]].
      rewrite E. exact Hle.
  - rewrite (calculateCPM_unsorted _ Es) in H. inversion H; subst nodes. split.
    + intros n Hn. apply In_values_get in Hn; [|apply initNodeMap_NoDup].
      destruct Hn as [k G]. apply initNodeMap_duration in G. destruct G as [-> _].
      simpl. split; ring.
    + intros A. exfalso. apply A. now apply topologicalSort_None.
Qed.

(** Over the rationals a non-empty acyclic list with distinct IDs and
    durations that are not negative has a chain of critical nodes from a
    node without dependencies to a node no task depends on, whose durations
    add up to the project duration. *)
Lemma exact_critical_path (tasks : list PertTask) :
  tasks <> [] -> acyclic tasks -> NoDup (map id tasks) ->
  (forall t, In t tasks -> 0 <= calculateExpectedTime t) ->
  (deps_present tasks -> exists nodes, calculateCPM tasks = Ok nodes) /\
  forall nodes, calculateCPM tasks = Ok nodes ->
    (forall n, In n nodes -> isCritical n = number_abs_lt (slack n) (1 # 100)) /\
    (exists n, In n nodes /\ isCritical n = true) /\
    exists front last,
      critical_chain nodes (front ++ [last]) /\
      (forall t, In t tasks -> ~ In (node_id last) (dependencies t)) /\
      (forall m, In m nodes -> earlyFinish m <= sum_durations (front ++ [last])) /\
      earlyFinish last == sum_durations (front ++ [last]).
Proof.
  intros Hne A Hu Hpos. split; [apply calculateCPM_total|].
  intros nodes H. destruct (topologicalSort_acyclic _ A) as [sortedIds Es].
  destruct (calculateCPM_scheduled _ _ _ Es H) as (nm1 & nm & _ & _ & _ & -> & S & L).
  specialize (L Hu).
  assert (Hv : JSMap.values nm <> []).
  { destruct tasks as [|t tasks']; [congruence|].
    assert (Hk : In (id t) (JSMap.keys nm)).
    { rewrite (sch_keys _ _ _ S). apply taskMapOf_keys. now left. }
    apply get_In_keys in Hk. destruct (JSMap.get nm (id t)) as [n|] eqn:G; [|congruence].
    destruct (scheduled_value _ _ _ _ _ S G) as [Hin _]. intros E. rewrite E in Hin.
    destruct Hin. }
  destruct (critical_path_found _ _ _ S Hu L Hpos Hv) as (front & last & Hc & Hend & Hsum & Hl).
  split.
  { intros n Hn. destruct (scheduled_node _ _ _ _ S Hn) as (G & Hx & _).
    destruct (L _ Hx) as [n' [G' [(_ & _ & L3) _]]]. rewrite G in G'.
    now inversion G'; subst n'. }
  split.
  { exists last. apply Hc. apply in_or_app. right. now left. }
  exists front, last. split; [assumption|]. split; [assumption|]. split.
  - intros m Hm. rewrite Hsum. now apply projectDurationOf_ge.
  - rewrite Hsum. exact Hl.
Qed.

(** ** The graph a task list declares *)

Lemma depends_declared tasks x y :
  depends (declared tasks) x y <->
  exists t, In t tasks /\ id t = x /\ In y (dependencies t).
Proof.
  unfold depends, declared. split.
  - intros [deps [Hin Hy]]. apply in_map_iff in Hin. destruct Hin as [t [E Ht]].
    inversion E; subst. eauto.
  - intros [t [Ht [<- Hy]]]. exists (dependencies t). split; [|assumption].
    apply in_map_iff. eauto.
Qed.

Lemma depends_edge tasks x y :
  NoDup (map id tasks) ->
  (depends (declared tasks) x y <-> edge (taskMapOf tasks) x y).
Proof.
  intros Hu. rewrite depends_declared. symmetry. now apply edge_iff_task.
Qed.

Lemma reaches_path tasks x y :
  NoDup (map id tasks) ->
  (reaches (declared tasks) x y <-> path (taskMapOf tasks) x y).
Proof.
  intros Hu. split; intros P.
  - induction P as [x|x y z E P IH]; [constructor|].
    apply path_step with y; [now apply depends_edge | assumption].
  - induction P as [x|x y z E P IH]; [constructor|].
    apply reaches_step with y; [now apply depends_edge | assumption].
Qed.

Lemma has_loop_cyclic tasks :
  NoDup (map id tasks) -> (has_loop (declared tasks) <-> cyclic tasks).
Proof.
  intros Hu. unfold has_loop, cyclic, has_cycle. split; intros [x [y [E P]]]; exists x, y.
  - split; [now apply depends_edge | now apply reaches_path].
  - split; [now apply depends_edge | now apply reaches_path].
Qed.

(** ** Lists with distinct IDs *)

Lemma set_fresh {V : Type} (m : JSMap.t V) k v :
  ~ In k (JSMap.keys m) -> JSMap.set m k v = m ++ [(k, v)].
Proof.
  induction m as [|[k' v'] m IH]; simpl; intros H; [reflexivity|].
  destruct (String.eqb_spec k' k) as [->|Hne]; [tauto|]. rewrite IH; tauto.
Qed.

Lemma buildMap_distinct {V : Type} (f : PertTask -> V) tasks : forall (m : JSMap.t V),
  NoDup (map id tasks) -> (forall k, In k (JSMap.keys m) -> ~ In k (map id tasks)) ->
  buildMap f tasks m = m ++ map (fun t => (id t, f t)) tasks.
Proof.
  unfold buildMap. induction tasks as [|t tasks IH]; intros m Hu Hd; simpl.
  - now rewrite app_nil_r.
  - inversion Hu as [|? ? Hn Hu']; subst. rewrite set_fresh.
    + rewrite IH; [now rewrite <- app_assoc|assumption|].
      intros k Hk. unfold JSMap.keys in Hk. rewrite map_app in Hk. apply in_app_or in Hk.
      destruct Hk as [Hk|[<-|[]]]; [|assumption].
      intros Hin. apply (Hd k Hk). now right.
    + intros Hk. apply (Hd _ Hk). now left.
Qed.

(** With distinct IDs the initial nodes are those of the tasks, in the
    order of the list. *)
Lemma initNodeMap_distinct tasks :
  NoDup (map id tasks) -> JSMap.values (initNodeMap tasks) = map initNode tasks.
Proof.
  intros Hu. unfold initNodeMap.
  change (fold_left (fun m task => JSMap.set m (id task) (initNode task)) tasks JSMap.empty)
    with (buildMap initNode tasks JSMap.empty).
  rewrite (buildMap_distinct initNode tasks JSMap.empty Hu (fun k H => match H with end)).
  unfold JSMap.values. simpl. rewrite map_map. reflexivity.
Qed.

Lemma loopABC_NoDup : NoDup (map id loopABC).
Proof. repeat constructor; simpl; intuition discriminate. Qed.

Lemma loopABC_has_loop : has_loop (declared loopABC).
Proof. apply (has_loop_cyclic _ loopABC_NoDup). exact loopABC_cyclic. Qed.

Lemma dupLoop_has_loop : has_loop (declared dupLoop).
Proof.
  assert (AB : depends (declared dupLoop) "A" "B").
  { exists ["B"]. split; simpl; auto. }
  assert (BA : depends (declared dupLoop) "B" "A").
  { exists ["A"]. split; simpl; auto. }
  exists "A", "B". split; [exact AB|].
  apply reaches_step with "A"; [exact BA | constructor].
Qed.

(** ** The sorter over binary64 tasks

    The sorter reads the IDs and the dependencies only, so it runs on
    binary64 tasks as on their skeletons. *)












(** ** The passes over binary64 numbers

    What the passes assign: no fact of arithmetic enters. *)

Section Binary64Passes.
Variable tasks : list Binary64.PertTask.







End Binary64Passes.








(** * The claims of the specification *)

(** ** Cycles *)

(** C1 (as the code has it). When the dependency graph that a task list
    with distinct IDs declares contains a cycle, the computation does not
    fail: it throws nothing and returns the nodes as they were
    initialised, one per task in the order of the list, none of them
    touched by a pass. *)
Theorem calculateCPM_cyclic_returns (tasks : list PertTask) :
  NoDup (map id tasks) -> has_loop (declared tasks) ->
  calculateCPM tasks = Ok (map initNode tasks) /\
  (forall e, calculateCPM tasks <> Throw e).
Proof.
  intros Hu Hl. apply (has_loop_cyclic _ Hu) in Hl.
  pose proof (calculateCPM_unsorted _ (topologicalSort_cyclic _ Hl)) as E.
  rewrite (initNodeMap_distinct _ Hu) in E.
  split; [exact E|]. intros e. rewrite E. discriminate.
Qed.

(** The loop A, B, C is such a list. *)
Lemma calculateCPM_cyclic_returns_witness :
  NoDup (map id loopABC) /\ has_loop (declared loopABC) /\
  calculateCPM loopABC = Ok (map initNode loopABC) /\
  (forall e, calculateCPM loopABC <> Throw e).
Proof.
  split; [exact loopABC_NoDup|]. split; [exact loopABC_has_loop|].
  exact (calculateCPM_cyclic_returns loopABC loopABC_NoDup loopABC_has_loop).
Defined.

(** C1 as stated fails: on the loop A, B, C the computation raises no
    error and hands three nodes to the caller. *)
Lemma cycle_is_not_a_failure :
  NoDup (map id loopABC) /\ has_loop (declared loopABC) /\ cyclic loopABC /\
  calculateCPM loopABC = Ok (map initNode loopABC) /\
  ~ (exists e, calculateCPM loopABC = Throw e).
Proof.
  split; [exact loopABC_NoDup|]. split; [exact loopABC_has_loop|].
  split; [exact loopABC_cyclic|].
  assert (E : calculateCPM loopABC = Ok (map initNode loopABC)) by (vm_compute; reflexivity).
  split; [exact E|]. intros [e He]. rewrite E in He. discriminate.
Qed.

(** ** Dangling dependencies *)

(** C2 (the code at the failing input). A single task whose dependency
    names no task of the list: the sorter puts the missing ID first in its
    order, the forward pass finds no node for it and the computation ends
    with a [TypeError] instead of a schedule. *)
Theorem calculateCPM_dangling_throws :
  topologicalSort dangling = Some ["X"; "A"] /\
  JSMap.get (initNodeMap dangling) "X" = None /\
  calculateCPM dangling = Throw TypeError.
Proof. repeat split; vm_compute; reflexivity. Qed.

(** ** Forward pass *)




(** ** Backward pass *)




(** ** Slack *)




(** ** Critical path *)




(** ** Expected duration *)



(** ** Calendar projection *)

(** C8 (the code at the failing input). The start date 2026-01-01 and a
    node with earlyStart 0 and earlyFinish 5: where local time is UTC or
    behind it (here UTC and UTC-5) the range is 2026-01-01 to 2026-01-06;
    where local time is ahead of UTC (here UTC+1) the start date is read
    as local midnight, which is the evening before in UTC, and the range
    printed from UTC is 2025-12-31 to 2026-01-05. *)
Theorem calendar_projection_by_time_zone (host : string -> option Z) :
  Calendar.computeCalendarDates 0 host [Calendar.sampleNode "A" 0 5] "2026-01-01"
  = Ok [("A", {| Calendar.startDate := "2026-01-01"; Calendar.endDate := "2026-01-06" |})] /\
  Calendar.computeCalendarDates (-300) host [Calendar.sampleNode "A" 0 5] "2026-01-01"
  = Ok [("A", {| Calendar.startDate := "2026-01-01"; Calendar.endDate := "2026-01-06" |})] /\
  Calendar.computeCalendarDates 60 host [Calendar.sampleNode "A" 0 5] "2026-01-01"
  = Ok [("A", {| Calendar.startDate := "2025-12-31"; Calendar.endDate := "2026-01-05" |})].
Proof. repeat split; vm_compute; reflexivity. Qed.

(** C9. For every list of nodes, a start date that does not give a valid
    date yields the empty map and no exception, whatever the time zone
    and the host; a start date with an element out of range, such as a
    month 13, is invalid on every host. *)
Theorem invalid_start_date_empty (tz : Z) (host : string -> option Z)
    (pertNodes : list PertNode) (projectStartDate : string) :
  Calendar.Date_of_string tz host (projectStartDate ++ "T00:00:00")%string = None ->
  Calendar.computeCalendarDates tz host pertNodes projectStartDate = Ok JSMap.empty.
Proof.
  intros H. unfold Calendar.computeCalendarDates. now rewrite H.
Qed.

(** A start date in month 13 is such a date. *)
Lemma invalid_start_date_empty_witness :
  Calendar.Date_of_string 60 Calendar.strict_host ("2026-13-01" ++ "T00:00:00")%string = None /\
  Calendar.computeCalendarDates 60 Calendar.strict_host
    [Calendar.sampleNode "A" 0 5] "2026-13-01" = Ok JSMap.empty.
Proof.
  split; [vm_compute; reflexivity|].
  apply (invalid_start_date_empty 60 Calendar.strict_host
           [Calendar.sampleNode "A" 0 5] "2026-13-01").
  vm_compute. reflexivity.
Defined.

(** ** Cycles, as the code treats them *)

(** C10 (as the code has it). For every task list with distinct IDs whose
    dependency graph contains a cycle, [calculateCPM] does not throw: it
    returns one node per task ID, each with the duration of the
    three-point formula, with earlyStart, earlyFinish, lateStart,
    lateFinish and slack all 0 and isCritical false. *)
Theorem calculateCPM_cyclic_nodes (tasks : list PertTask) :
  NoDup (map id tasks) -> has_loop (declared tasks) ->
  exists nodes,
    calculateCPM tasks = Ok nodes /\
    NoDup (map node_id nodes) /\
    (forall k, In k (map node_id nodes) <-> In k (map id tasks)) /\
    forall n, In n nodes ->
      In (task n) tasks /\
      duration n =
        (optimistic (task n) + 4 * likely (task n) + pessimistic (task n)) / 6 /\
      earlyStart n = 0 /\ earlyFinish n = 0 /\
      lateStart n = Num 0 /\ lateFinish n = Num 0 /\ slack n = Num 0 /\
      isCritical n = false.
Proof.
  intros Hu Hl. apply (has_loop_cyclic _ Hu) in Hl. rename Hl into C.
  exists (JSMap.values (initNodeMap tasks)).
  split; [apply calculateCPM_unsorted; now apply topologicalSort_cyclic|].
  rewrite (node_ids_keys tasks _ (agrees_init tasks) (initNodeMap_NoDup tasks)).
  split; [apply initNodeMap_NoDup|].
  split; [intros k; rewrite initNodeMap_keys; apply taskMapOf_keys|].
  intros n Hn. apply In_values_get in Hn; [|apply initNodeMap_NoDup].
  destruct Hn as [k G]. apply initNodeMap_duration in G. destruct G as (E & Hin & _).
  split; [assumption|]. rewrite E. simpl. repeat split; reflexivity.
Qed.

(** The loop A, B, C is such a list. *)
Lemma calculateCPM_cyclic_nodes_witness :
  NoDup (map id loopABC) /\ has_loop (declared loopABC) /\
  exists nodes,
    calculateCPM loopABC = Ok nodes /\
    NoDup (map node_id nodes) /\
    (forall k, In k (map node_id nodes) <-> In k (map id loopABC)) /\
    forall n, In n nodes ->
      In (task n) loopABC /\
      duration n =
        (optimistic (task n) + 4 * likely (task n) + pessimistic (task n)) / 6 /\
      earlyStart n = 0 /\ earlyFinish n = 0 /\
      lateStart n = Num 0 /\ lateFinish n = Num 0 /\ slack n = Num 0 /\
      isCritical n = false.
Proof.
  split; [exact loopABC_NoDup|]. split; [exact loopABC_has_loop|].
  exact (calculateCPM_cyclic_nodes loopABC loopABC_NoDup loopABC_has_loop).
Defined.

(** C10 as stated fails when an ID repeats.  In [dupLoop] A and B depend
    on each other, both IDs of the list, but the sorter reads the
    dependencies of the second task A, which has none: it finds no cycle,
    both passes run, and the two nodes come back with early finishes 3 and
    5 and slack -5. *)
Lemma cycle_with_repeated_id :
  has_loop (declared dupLoop) /\
  topologicalSort dupLoop = Some ["A"; "B"] /\
  match calculateCPM dupLoop with
  | Ok [a; b] =>
      node_id a = "A" /\ node_id b = "B" /\
      earlyFinish a == 3 /\ earlyFinish b == 5 /\
      number_eq (slack a) (Num (-5)) /\ number_eq (slack b) (Num (-5))
  | _ => False
  end.
Proof.
  split; [exact dupLoop_has_loop|]. split; [vm_compute; reflexivity|].
  vm_compute. repeat split; reflexivity.
Qed.

(** * Further properties of the code *)

(** ** What the engine throws *)

Lemma forwardPass_throws : forall ids nm e, forwardPass ids nm = Throw e -> e = TypeError.
Proof.
  induction ids as [|x ids IH]; intros nm e H; simpl in H; [discriminate|].
  unfold forwardStep in H. destruct (JSMap.get nm x); simpl in H; [eauto | congruence].
Qed.

Lemma backwardPass_throws pd succ : forall ids nm e,
  backwardPass pd succ ids nm = Throw e -> e = TypeError.
Proof.
  induction ids as [|x ids IH]; intros nm e H; simpl in H; [discriminate|].
  unfold backwardStep in H. destruct (JSMap.get nm x); simpl in H; [eauto | congruence].
Qed.

Lemma calculateCPM_throws tasks e : calculateCPM tasks = Throw e -> e = TypeError /\ acyclic tasks.
Proof.
  intros H. destruct (topologicalSort tasks) as [sortedIds|] eqn:Es.
  - split; [|eapply topologicalSort_Some_acyclic; eauto].
    rewrite (calculateCPM_sorted _ _ Es) in H.
    destruct (forwardPass sortedIds (initNodeMap tasks)) as [nm1|e1] eqn:F; simpl in H.
    + destruct (backwardPass (projectDurationOf nm1) (successorsMapOf tasks) (rev sortedIds) nm1)
        as [nm2|e2] eqn:B; simpl in H; [discriminate|].
      inversion H; subst. eapply backwardPass_throws; eauto.
    + inversion H; subst. eapply forwardPass_throws; eauto.
  - rewrite (calculateCPM_unsorted _ Es) in H. discriminate.
Qed.

(** With distinct IDs and no loop, the computation returns exactly when
    every dependency names a task of the list, and throws a [TypeError]
    otherwise. *)
Lemma calculateCPM_distinct tasks :
  NoDup (map id tasks) -> ~ has_loop (declared tasks) ->
  ((exists nodes, calculateCPM tasks = Ok nodes) <-> deps_present tasks) /\
  (calculateCPM tasks = Throw TypeError <-> ~ deps_present tasks).
Proof.
  intros Hu Hl.
  assert (A : acyclic tasks) by (intros C; apply Hl; now apply has_loop_cyclic).
  pose proof (calculateCPM_returns_iff tasks Hu A) as R.
  split; [exact R|]. split.
  - intros H Hp. apply R in Hp. destruct Hp as [nodes E]. congruence.
  - intros Hn. destruct (calculateCPM tasks) as [nodes|e] eqn:E.
    + exfalso. apply Hn, R. eauto.
    + now destruct (calculateCPM_throws _ _ E) as [-> _].
Qed.

Lemma scenario_no_loop : ~ has_loop (declared scenario).
Proof.
  intros C. apply scenario_acyclic. now apply (has_loop_cyclic _ scenario_NoDup).
Qed.

Lemma dangling_NoDup : NoDup (map id dangling).
Proof. repeat constructor. simpl. tauto. Qed.

Lemma dangling_no_loop : ~ has_loop (declared dangling).
Proof.
  intros C. apply (has_loop_cyclic _ dangling_NoDup) in C. revert C.
  apply (topologicalSort_Some_acyclic _ ["X"; "A"]). vm_compute. reflexivity.
Qed.

(** ** The sorter *)

(** X1. [topologicalSort] returns [null] exactly when the map it builds
    from the tasks has a cycle; for a list with distinct IDs, exactly when
    the dependency graph of the list has one.  It returns an order in every
    other case: the depth-first search always ends. *)
Theorem sorter_null_iff_cycle (tasks : list PertTask) :
  (topologicalSort tasks = None <-> cyclic tasks) /\
  (NoDup (map id tasks) ->
   (topologicalSort tasks = None <-> has_loop (declared tasks))) /\
  (topologicalSort tasks = None \/ exists sortedIds, topologicalSort tasks = Some sortedIds).
Proof.
  assert (K : topologicalSort tasks = None <-> cyclic tasks)
    by (split; [apply topologicalSort_None | apply topologicalSort_cyclic]).
  split; [exact K|]. split.
  - intros Hu. rewrite K. symmetry. now apply has_loop_cyclic.
  - destruct (topologicalSort tasks) as [l|]; [right; eauto | now left].
Qed.



(** ** What the engine returns *)

(** X3. For a task list with distinct IDs and no dependency loop,
    [calculateCPM] returns nodes exactly when every dependency names a task
    of the list, and throws a [TypeError] exactly when some dependency
    names none. *)
Theorem calculateCPM_returns_or_throws (tasks : list PertTask) :
  NoDup (map id tasks) -> ~ has_loop (declared tasks) ->
  ((exists nodes, calculateCPM tasks = Ok nodes) <-> deps_present tasks) /\
  (calculateCPM tasks = Throw TypeError <-> ~ deps_present tasks).
Proof. exact (calculateCPM_distinct tasks). Qed.

Lemma calculateCPM_returns_or_throws_witness :
  NoDup (map id dangling) /\ ~ has_loop (declared dangling) /\
  ((exists nodes, calculateCPM dangling = Ok nodes) <-> deps_present dangling) /\
  (calculateCPM dangling = Throw TypeError <-> ~ deps_present dangling).
Proof.
  split; [exact dangling_NoDup|]. split; [exact dangling_no_loop|].
  exact (calculateCPM_returns_or_throws dangling dangling_NoDup dangling_no_loop).
Defined.

Lemma taskMapOf_distinct tasks :
  NoDup (map id tasks) -> taskMapOf tasks = map (fun t => (id t, t)) tasks.
Proof.
  intros Hu. exact (buildMap_distinct (fun t => t) tasks JSMap.empty Hu (fun k H => match H with end)).
Qed.

Lemma taskMapOf_keys_distinct tasks :
  NoDup (map id tasks) -> JSMap.keys (taskMapOf tasks) = map id tasks.
Proof.
  intros Hu. rewrite (taskMapOf_distinct _ Hu). unfold JSMap.keys. rewrite map_map.
  reflexivity.
Qed.

Lemma values_tasks : forall (nm : JSMap.t PertNode) tasks,
  JSMap.keys nm = map id tasks -> NoDup (map id tasks) ->
  (forall t, In t tasks -> option_map task (JSMap.get nm (id t)) = Some t) ->
  map task (JSMap.values nm) = tasks.
Proof.
  induction nm as [|[k n] nm IH]; intros [|t ts] K Hu H; simpl in *; try discriminate.
  - reflexivity.
  - inversion K; subst. inversion Hu as [|? ? Hn Hu']; subst. f_equal.
    + specialize (H t (or_introl eq_refl)). rewrite String.eqb_refl in H. simpl in H. congruence.
    + apply IH; try assumption. intros t' Ht'. specialize (H t' (or_intror Ht')).
      destruct (String.eqb_spec (id t) (id t')) as [E|_]; [|assumption].
      exfalso. apply Hn. rewrite E. now apply in_map.
Qed.

(** The nodes of a list with distinct IDs carry the tasks, in their
    order. *)
Lemma calculateCPM_tasks_distinct tasks nodes :
  calculateCPM tasks = Ok nodes -> NoDup (map id tasks) -> map task nodes = tasks.
Proof.
  intros H Hu. destruct (calculateCPM_nodes _ _ H) as (nm & -> & K & A & _).
  apply values_tasks; [now rewrite K, taskMapOf_keys_distinct|assumption|].
  intros t Ht. rewrite (A (id t)). now apply taskMapOf_get_NoDup.
Qed.

(** X4. Whatever [calculateCPM] returns has one node per task ID of the
    list and no other node, so never more nodes than tasks; for a list with
    distinct IDs the nodes carry the tasks in the order of the list, not in
    the order of the sorter. *)
Theorem calculateCPM_keeps_tasks (tasks : list PertTask) (nodes : list PertNode) :
  calculateCPM tasks = Ok nodes ->
  NoDup (map node_id nodes) /\
  (forall k, In k (map node_id nodes) <-> In k (map id tasks)) /\
  (List.length nodes <= List.length tasks)%nat /\
  (NoDup (map id tasks) -> map task nodes = tasks).
Proof.
  intros H. split; [|split; [|split]].
  4: now apply calculateCPM_tasks_distinct.
  all: destruct (calculateCPM_nodes _ _ H) as (nm & -> & K & A & _).
  all: assert (Hnd : NoDup (JSMap.keys nm)) by (rewrite K; apply taskMapOf_NoDup).
  - now rewrite (node_ids_keys tasks nm A Hnd).
  - rewrite (node_ids_keys tasks nm A Hnd). intros k; rewrite K; apply taskMapOf_keys.
  - unfold JSMap.values. rewrite length_map.
    replace (List.length nm) with (List.length (JSMap.keys nm))
      by (unfold JSMap.keys; apply length_map).
    rewrite K. apply taskMapOf_length.
Qed.

Lemma calculateCPM_keeps_tasks_witness :
  calculateCPM scenario = Ok scenario_nodes /\
  (NoDup (map node_id scenario_nodes) /\
  (forall k, In k (map node_id scenario_nodes) <-> In k (map id scenario)) /\
  (List.length scenario_nodes <= List.length scenario)%nat /\
  (NoDup (map id scenario) -> map task scenario_nodes = scenario)).
Proof.
  split; [exact scenario_result | exact (calculateCPM_keeps_tasks _ _ scenario_result)].
Defined.

(** ** Adding and removing tasks *)

Lemma NoDup_map_filter {A B : Type} (f : A -> B) (p : A -> bool) l :
  NoDup (map f l) -> NoDup (map f (filter p l)).
Proof.
  induction l as [|a l IH]; simpl; intros H; [constructor|].
  inversion H as [|? ? Hn Hu]; subst. destruct (p a); simpl; [|auto].
  constructor; [|auto]. intros Hin. apply Hn. apply in_map_iff in Hin.
  destruct Hin as [x [E Hx]]. apply filter_In in Hx. apply in_map_iff. exists x. tauto.
Qed.

(** A list whose dependencies are all dependencies of a task of the same ID
    in another list declares a loop only if the other list does. *)
Lemma depends_sub (l l' : list PertTask) :
  (forall t', In t' l' -> forall d, In d (dependencies t') ->
     exists t, In t l /\ id t = id t' /\ In d (dependencies t)) ->
  forall x y, depends (declared l') x y -> depends (declared l) x y.
Proof.
  intros Hs x y H. apply depends_declared in H. destruct H as [t' [Ht' [E Hy]]].
  destruct (Hs t' Ht' y Hy) as [t [Ht [Ei Hd]]].
  apply depends_declared. exists t. repeat split; [assumption | congruence | assumption].
Qed.

Lemma has_loop_sub (l l' : list PertTask) :
  (forall x y, depends (declared l') x y -> depends (declared l) x y) ->
  has_loop (declared l') -> has_loop (declared l).
Proof.
  intros Hs [x [y [E P]]]. exists x, y. split; [auto|].
  clear E. induction P as [z|a b c E' P IH]; [constructor|].
  apply reaches_step with b; auto.
Qed.

(** Appending a task without dependencies. *)
Lemma append_free_deps_present (l : list PertTask) (e : PertTask) :
  dependencies e = [] -> deps_present l -> deps_present (l ++ [e]).
Proof.
  intros He Hp t Ht d Hd. rewrite map_app, in_app_iff.
  apply in_app_iff in Ht. destruct Ht as [Ht|[<-|[]]].
  - left. eapply Hp; eauto.
  - rewrite He in Hd. destruct Hd.
Qed.

Lemma append_free_has_loop (l : list PertTask) (e : PertTask) :
  dependencies e = [] -> has_loop (declared (l ++ [e])) -> has_loop (declared l).
Proof.
  intros He. apply has_loop_sub, depends_sub. intros t' Ht' d Hd.
  apply in_app_iff in Ht'. destruct Ht' as [Ht'|[<-|[]]].
  - exists t'. auto.
  - rewrite He in Hd. destruct Hd.
Qed.

Lemma append_NoDup (l : list PertTask) (e : PertTask) :
  NoDup (map id (l ++ [e])) <-> NoDup (map id l) /\ ~ In (id e) (map id l).
Proof.
  rewrite map_app. simpl. split.
  - intros H. split.
    + eapply NoDup_app_remove_r; eauto.
    + apply NoDup_remove_2 in H. rewrite app_nil_r in H. exact H.
  - intros [H1 H2]. apply NoDup_app; [assumption | repeat constructor; intros [] | ].
    intros a Ha [<-|[]]. exact (H2 Ha).
Qed.

(** The tasks a removal leaves. *)
Lemma removal_In (r : string) (l : list PertTask) (t' : PertTask) :
  In t' (map (Llm.withoutDependency r)
           (filter (fun t => negb (String.eqb (id t) r)) l)) <->
  exists t, In t l /\ id t <> r /\ t' = Llm.withoutDependency r t.
Proof.
  rewrite in_map_iff. split.
  - intros [t [E Ht]]. apply filter_In in Ht. destruct Ht as [Ht Hb].
    exists t. repeat split; auto.
    intros Er. rewrite Er, String.eqb_refl in Hb. discriminate.
  - intros [t [Ht [Hne E]]]. exists t. split; [auto|]. apply filter_In. split; [auto|].
    destruct (String.eqb_spec (id t) r) as [Er|Er]; [exfalso; exact (Hne Er) | reflexivity].
Qed.

Lemma withoutDependency_deps (r : string) (t : PertTask) (d : string) :
  In d (dependencies (Llm.withoutDependency r t)) <-> In d (dependencies t) /\ d <> r.
Proof.
  simpl. rewrite filter_In. split; intros [H1 H2]; split; trivial.
  - intros E. rewrite E, String.eqb_refl in H2. discriminate.
  - destruct (String.eqb_spec d r) as [E|E]; [exfalso; exact (H2 E) | reflexivity].
Qed.

Lemma removal_deps_present (r : string) (l : list PertTask) :
  deps_present l ->
  deps_present (map (Llm.withoutDependency r)
                  (filter (fun t => negb (String.eqb (id t) r)) l)).
Proof.
  intros Hp t' Ht' d Hd. apply removal_In in Ht'. destruct Ht' as [t [Ht [Hne ->]]].
  apply withoutDependency_deps in Hd. destruct Hd as [Hd Hdr].
  specialize (Hp t Ht d Hd). apply in_map_iff in Hp. destruct Hp as [u [Eu Hu]].
  apply in_map_iff. exists (Llm.withoutDependency r u). split; [exact Eu|].
  apply removal_In. exists u. repeat split; [assumption | congruence].
Qed.

Lemma removal_has_loop (r : string) (l : list PertTask) :
  has_loop (declared (map (Llm.withoutDependency r)
                        (filter (fun t => negb (String.eqb (id t) r)) l))) ->
  has_loop (declared l).
Proof.
  apply has_loop_sub, depends_sub. intros t' Ht' d Hd.
  apply removal_In in Ht'. destruct Ht' as [t [Ht [Hne ->]]].
  apply withoutDependency_deps in Hd. exists t. tauto.
Qed.

Lemma removal_NoDup (r : string) (l : list PertTask) :
  NoDup (map id l) ->
  NoDup (map id (map (Llm.withoutDependency r)
                   (filter (fun t => negb (String.eqb (id t) r)) l))).
Proof.
  intros H. rewrite map_map. simpl.
  change (fun x : PertTask => id x) with id. now apply NoDup_map_filter.
Qed.

Lemma removal_gone (r : string) (l : list PertTask) :
  let l' := map (Llm.withoutDependency r)
              (filter (fun t => negb (String.eqb (id t) r)) l) in
  ~ In r (map id l') /\ forall t, In t l' -> ~ In r (dependencies t).
Proof.
  cbv zeta. split.
  - intros H. apply in_map_iff in H. destruct H as [t' [E Ht']].
    apply removal_In in Ht'. destruct Ht' as [t [_ [Hne ->]]]. exact (Hne E).
  - intros t' Ht' Hd. apply removal_In in Ht'. destruct Ht' as [t [_ [_ ->]]].
    apply withoutDependency_deps in Hd. now destruct Hd.
Qed.

Lemma removeTask_In taskId tasks t :
  In t (App.removeTask taskId tasks) <-> In t tasks /\ id t <> taskId.
Proof.
  unfold App.removeTask. rewrite filter_In. split; intros [H1 H2]; split; trivial.
  - intros E. rewrite E, String.eqb_refl in H2. discriminate.
  - destruct (String.eqb_spec (id t) taskId) as [E|E]; [exfalso; exact (H2 E) | reflexivity].
Qed.

Lemma dependents_dec (taskId : string) (tasks : list PertTask) :
  (exists t, In t tasks /\ id t <> taskId /\ In taskId (dependencies t)) \/
  (forall t, In t tasks -> id t <> taskId -> ~ In taskId (dependencies t)).
Proof.
  induction tasks as [|t tasks [[t' (H1 & H2 & H3)]|IH]].
  - right. intros t [].
  - left. exists t'. split; [now right | auto].
  - destruct (string_dec (id t) taskId) as [E|Hne].
    + right. intros t' [<-|Hin] Hne'; [contradiction | now apply IH].
    + destruct (in_dec string_dec taskId (dependencies t)) as [Hin|Hn].
      * left. exists t. split; [now left | auto].
      * right. intros t' [<-|Hin'] Hne'; [assumption | now apply IH].
Qed.

Lemma removeTask_deps_present taskId tasks :
  deps_present tasks ->
  (deps_present (App.removeTask taskId tasks) <->
   forall t, In t tasks -> id t <> taskId -> ~ In taskId (dependencies t)).
Proof.
  intros Hp. split.
  - intros Hp' t Ht Hne Hin.
    assert (Ht' : In t (App.removeTask taskId tasks)) by (apply removeTask_In; auto).
    specialize (Hp' t Ht' _ Hin). apply in_map_iff in Hp'. destruct Hp' as [t2 [E H2]].
    apply removeTask_In in H2. tauto.
  - intros Hnone t Ht d Hd. apply removeTask_In in Ht. destruct Ht as [Ht Hne].
    specialize (Hp t Ht d Hd). apply in_map_iff in Hp. destruct Hp as [t2 [<- H2]].
    apply in_map. apply removeTask_In. split; [assumption|].
    intros E. apply (Hnone t Ht Hne). now rewrite <- E.
Qed.

Lemma has_loop_incl (l l' : list PertTask) :
  incl l l' -> has_loop (declared l) -> has_loop (declared l').
Proof.
  intros Hi. apply has_loop_sub, depends_sub. intros t Ht d Hd. exists t. auto.
Qed.

(** X5. [removeTask] of the chart filters the task out and leaves the
    dependency lists alone.  On a list with distinct IDs, no loop and every
    dependency present, [calculateCPM] of the list it leaves returns when
    no remaining task depends on the removed ID, and throws a [TypeError]
    when one does. *)
Theorem removeTask_schedule (taskId : string) (tasks : list PertTask) :
  NoDup (map id tasks) -> ~ has_loop (declared tasks) -> deps_present tasks ->
  ((exists nodes, calculateCPM (App.removeTask taskId tasks) = Ok nodes) <->
   forall t, In t tasks -> id t <> taskId -> ~ In taskId (dependencies t)) /\
  (calculateCPM (App.removeTask taskId tasks) = Throw TypeError <->
   exists t, In t tasks /\ id t <> taskId /\ In taskId (dependencies t)).
Proof.
  intros Hu Hl Hp.
  assert (Hu' : NoDup (map id (App.removeTask taskId tasks))) by now apply NoDup_map_filter.
  assert (Hl' : ~ has_loop (declared (App.removeTask taskId tasks))).
  { intros C. apply Hl. revert C. apply has_loop_incl. intros t Ht.
    now apply removeTask_In in Ht. }
  destruct (calculateCPM_distinct _ Hu' Hl') as [R T].
  pose proof (removeTask_deps_present taskId tasks Hp) as D. split.
  - rewrite R. exact D.
  - rewrite T. split.
    + intros Hn. destruct (dependents_dec taskId tasks) as [H|H]; [assumption|].
      exfalso. apply Hn. now apply D.
    + intros [t (H1 & H2 & H3)] Hp'. exact (proj1 D Hp' t H1 H2 H3).
Qed.

Lemma removeTask_schedule_witness :
  NoDup (map id scenario) /\ ~ has_loop (declared scenario) /\ deps_present scenario /\
  ((exists nodes, calculateCPM (App.removeTask "A" scenario) = Ok nodes) <->
   forall t, In t scenario -> id t <> "A" -> ~ In "A" (dependencies t)) /\
  (calculateCPM (App.removeTask "A" scenario) = Throw TypeError <->
   exists t, In t scenario /\ id t <> "A" /\ In "A" (dependencies t)).
Proof.
  split; [exact scenario_NoDup|]. split; [exact scenario_no_loop|].
  split; [exact scenario_deps_present|].
  exact (removeTask_schedule "A" scenario scenario_NoDup scenario_no_loop
           scenario_deps_present).
Defined.

(** X6. [addTask] of the chart keeps a list schedulable: with every
    dependency present before, every dependency is present after and
    [calculateCPM] returns; the list has a loop after exactly when it had
    one before; its IDs are distinct after exactly when they were before
    and the new ID is none of them; and the nodes then carry the old tasks
    followed by the new one. *)
Theorem addTask_schedule (random : string) (tasks : list PertTask) :
  deps_present tasks ->
  deps_present (App.addTask random tasks) /\
  (exists nodes, calculateCPM (App.addTask random tasks) = Ok nodes) /\
  (has_loop (declared (App.addTask random tasks)) <-> has_loop (declared tasks)) /\
  (NoDup (map id (App.addTask random tasks)) <->
   NoDup (map id tasks) /\ ~ In random (map id tasks)) /\
  (NoDup (map id tasks) -> ~ In random (map id tasks) ->
   forall nodes, calculateCPM (App.addTask random tasks) = Ok nodes ->
     map task nodes = tasks ++ [createEmptyTask random]).
Proof.
  intros Hp. unfold App.addTask.
  assert (Hp' : deps_present (tasks ++ [createEmptyTask random]))
    by now apply append_free_deps_present.
  split; [exact Hp'|]. split; [now apply calculateCPM_total|]. split; [|split].
  - split; [now apply append_free_has_loop|].
    apply has_loop_incl. intros t Ht. apply in_app_iff. now left.
  - apply (append_NoDup tasks (createEmptyTask random)).
  - intros Hu Hf nodes H. apply (calculateCPM_tasks_distinct _ _ H).
    apply append_NoDup. split; assumption.
Qed.

Lemma addTask_schedule_witness :
  deps_present scenario /\
  deps_present (App.addTask "k3x9" scenario) /\
  (exists nodes, calculateCPM (App.addTask "k3x9" scenario) = Ok nodes) /\
  (has_loop (declared (App.addTask "k3x9" scenario)) <-> has_loop (declared scenario)) /\
  (NoDup (map id (App.addTask "k3x9" scenario)) <->
   NoDup (map id scenario) /\ ~ In "k3x9" (map id scenario)) /\
  (NoDup (map id scenario) -> ~ In "k3x9" (map id scenario) ->
   forall nodes, calculateCPM (App.addTask "k3x9" scenario) = Ok nodes ->
     map task nodes = scenario ++ [createEmptyTask "k3x9"]).
Proof.
  split; [exact scenario_deps_present|].
  exact (addTask_schedule "k3x9" scenario scenario_deps_present).
Defined.

(** X7. The demo chat never breaks a chart: whatever the message, if every
    dependency of the current tasks is present, so is every dependency of
    the tasks [mockModifyChart] resolves to, and [calculateCPM] returns on
    them; they have a loop only if the current tasks had one, and distinct
    IDs if the current tasks had and the ID made for a new task is none of
    them. *)
Theorem mockModifyChart_schedulable (toLowerCase : string -> string) (random : string)
    (currentTasks : list PertTask) (userMessage : string) :
  deps_present currentTasks ->
  let tasks' := Llm.tasks (Llm.mockModifyChart toLowerCase random currentTasks userMessage) in
  deps_present tasks' /\
  (exists nodes, calculateCPM tasks' = Ok nodes) /\
  (has_loop (declared tasks') -> has_loop (declared currentTasks)) /\
  (NoDup (map id currentTasks) -> ~ In ("new" ++ random)%string (map id currentTasks) ->
   NoDup (map id tasks')).
Proof.
  intros Hp tasks'.
  assert (K : deps_present tasks' /\
              (has_loop (declared tasks') -> has_loop (declared currentTasks)) /\
              (NoDup (map id currentTasks) ->
               ~ In ("new" ++ random)%string (map id currentTasks) ->
               NoDup (map id tasks'))).
  { subst tasks'. unfold Llm.mockModifyChart.
    destruct (Llm.includes (toLowerCase userMessage) "add"
              || Llm.includes (toLowerCase userMessage) "new task"); cbn [Llm.tasks].
    - repeat split.
      + now apply append_free_deps_present.
      + now apply append_free_has_loop.
      + intros Hu Hf. apply append_NoDup. split; assumption.
    - destruct (Llm.includes (toLowerCase userMessage) "remove"
                || Llm.includes (toLowerCase userMessage) "delete");
        [|cbn [Llm.tasks]; tauto].
      destruct (Llm.quoted userMessage) as [g|]; [|cbn [Llm.tasks]; tauto].
      destruct (find _ currentTasks) as [toRemove|]; cbn [Llm.tasks]; [|tauto].
      repeat split.
      + now apply removal_deps_present.
      + apply removal_has_loop.
      + intros Hu _. now apply removal_NoDup. }
  destruct K as (K1 & K2 & K3). repeat split; auto.
  now apply calculateCPM_total.
Qed.

Lemma mockModifyChart_schedulable_witness :
  deps_present scenario /\
  let tasks' := Llm.tasks (Llm.mockModifyChart (fun s => s) "ab12" scenario "remove 'A'") in
  deps_present tasks' /\
  (exists nodes, calculateCPM tasks' = Ok nodes) /\
  (has_loop (declared tasks') -> has_loop (declared scenario)) /\
  (NoDup (map id scenario) -> ~ In ("new" ++ "ab12")%string (map id scenario) ->
   NoDup (map id tasks')).
Proof.
  split; [exact scenario_deps_present|].
  exact (mockModifyChart_schedulable (fun s => s) "ab12" scenario "remove 'A'"
           scenario_deps_present).
Defined.

(** X8. A removal through the demo chat, unlike [removeTask] of the chart,
    also removes the ID from every dependency list: when the message asks
    to remove (and not to add) and quotes a text that the name of some task
    contains, the first such task is gone from the result, no task of the
    result depends on it, every other ID is kept, and every task kept has
    its estimates and its other dependencies. *)
Theorem mockModifyChart_remove (toLowerCase : string -> string) (random : string)
    (currentTasks : list PertTask) (userMessage g : string) (toRemove : PertTask) :
  Llm.includes (toLowerCase userMessage) "add" = false ->
  Llm.includes (toLowerCase userMessage) "new task" = false ->
  Llm.includes (toLowerCase userMessage) "remove" = true \/
  Llm.includes (toLowerCase userMessage) "delete" = true ->
  Llm.quoted userMessage = Some g ->
  find (fun t => Llm.includes (toLowerCase (name t)) (toLowerCase g)) currentTasks
    = Some toRemove ->
  let tasks' := Llm.tasks (Llm.mockModifyChart toLowerCase random currentTasks userMessage) in
  ~ In (id toRemove) (map id tasks') /\
  (forall t, In t tasks' -> ~ In (id toRemove) (dependencies t)) /\
  (forall k, k <> id toRemove -> (In k (map id tasks') <-> In k (map id currentTasks))) /\
  (forall t', In t' tasks' -> exists t, In t currentTasks /\ id t' = id t /\
      optimistic t' = optimistic t /\ likely t' = likely t /\
      pessimistic t' = pessimistic t /\
      forall d, In d (dependencies t') <-> In d (dependencies t) /\ d <> id toRemove).
Proof.
  intros Ha Hn Hr Hq Hf tasks'. subst tasks'. unfold Llm.mockModifyChart.
  rewrite Ha, Hn. cbn [orb].
  replace (Llm.includes (toLowerCase userMessage) "remove"
           || Llm.includes (toLowerCase userMessage) "delete") with true
    by (destruct Hr as [-> | ->]; [reflexivity | now rewrite orb_true_r]).
  rewrite Hq, Hf. cbn [Llm.tasks].
  destruct (removal_gone (id toRemove) currentTasks) as [G1 G2].
  split; [exact G1|]. split; [exact G2|]. split.
  - intros k Hk. rewrite !in_map_iff. split.
    + intros [t' [E Ht']]. apply removal_In in Ht'. destruct Ht' as [t [Ht [_ ->]]].
      exists t. split; [exact E | exact Ht].
    + intros [t [E Ht]]. exists (Llm.withoutDependency (id toRemove) t). split; [exact E|].
      apply removal_In. exists t. repeat split; [assumption | congruence].
  - intros t' Ht'. apply removal_In in Ht'. destruct Ht' as [t [Ht [_ ->]]].
    exists t. split; [exact Ht|]. do 4 (split; [reflexivity|]).
    intros d. apply withoutDependency_deps.
Qed.

Lemma mockModifyChart_remove_witness :
  let tasks' :=
    Llm.tasks (Llm.mockModifyChart (fun s => s) "ab12" alphaBeta "remove 'alpha'") in
  Llm.includes "remove 'alpha'" "add" = false /\
  Llm.includes "remove 'alpha'" "new task" = false /\
  (Llm.includes "remove 'alpha'" "remove" = true \/
   Llm.includes "remove 'alpha'" "delete" = true) /\
  Llm.quoted "remove 'alpha'" = Some "alpha" /\
  find (fun t => Llm.includes (name t) "alpha") alphaBeta = Some (mkTask "alpha" 1 2 3 []) /\
  ~ In "alpha" (map id tasks') /\
  (forall t, In t tasks' -> ~ In "alpha" (dependencies t)) /\
  (forall k, k <> "alpha" -> (In k (map id tasks') <-> In k (map id alphaBeta))) /\
  (forall t', In t' tasks' -> exists t, In t alphaBeta /\ id t' = id t /\
      optimistic t' = optimistic t /\ likely t' = likely t /\
      pessimistic t' = pessimistic t /\
      forall d, In d (dependencies t') <-> In d (dependencies t) /\ d <> "alpha").
Proof.
  intros tasks'.
  assert (H1 : Llm.includes "remove 'alpha'" "add" = false) by reflexivity.
  assert (H2 : Llm.includes "remove 'alpha'" "new task" = false) by reflexivity.
  assert (H3 : Llm.includes "remove 'alpha'" "remove" = true \/
               Llm.includes "remove 'alpha'" "delete" = true) by (left; reflexivity).
  assert (H4 : Llm.quoted "remove 'alpha'" = Some "alpha") by reflexivity.
  assert (H5 : find (fun t => Llm.includes (name t) "alpha") alphaBeta
               = Some (mkTask "alpha" 1 2 3 [])) by reflexivity.
  split; [exact H1|]. split; [exact H2|]. split; [exact H3|]. split; [exact H4|].
  split; [exact H5|].
  exact (mockModifyChart_remove (fun s => s) "ab12" alphaBeta "remove 'alpha'" "alpha"
           (mkTask "alpha" 1 2 3 []) H1 H2 H3 H4 H5).
Defined.

(** ** Dates *)

Section CalendarRoundTrip.
Local Open Scope Z_scope.





End CalendarRoundTrip.

Section CalendarLaw.
Local Open Scope Z_scope.





Lemma in_range_dec t : {Calendar.in_range t} + {~ Calendar.in_range t}.
Proof. unfold Calendar.in_range. apply Z_le_dec. Qed.

Lemma projectNodes_step tz base node rest ranges :
  Calendar.projectNodes tz base (node :: rest) ranges =
  match Calendar.projectDate tz base (earlyStart node) with
  | Throw e => Throw e
  | Ok start =>
      match Calendar.projectDate tz base (earlyFinish node) with
      | Throw e => Throw e
      | Ok end_ =>
          Calendar.projectNodes tz base rest
            (JSMap.set ranges (node_id node)
               {| Calendar.startDate := start; Calendar.endDate := end_ |})
      end
  end.
Proof. reflexivity. Qed.

Lemma projectNodes_result tz base pertNodes : forall ranges r,
  Calendar.projectNodes tz base pertNodes ranges = r ->
  match r with
  | Ok _ => forall n, In n pertNodes -> datesInRange base n
  | Throw e => e = RangeError /\ exists n, In n pertNodes /\ ~ datesInRange base n
  end.
Proof.
  induction pertNodes as [|node rest IH]; intros ranges r H.
  - subst r. intros n [].
  - rewrite projectNodes_step in H.
    destruct (in_range_dec (base + Calendar.Math_round (earlyStart node) * Calendar.msPerDay))
      as [H1|H1].
    + rewrite (projectDate_in_range _ _ _ H1) in H.
      destruct (in_range_dec (base + Calendar.Math_round (earlyFinish node) * Calendar.msPerDay))
        as [H2|H2].
      * rewrite (projectDate_in_range _ _ _ H2) in H.
        specialize (IH _ _ H). destruct r as [m|e].
        -- intros n [<-|Hn]; [split; assumption | apply IH; assumption].
        -- destruct IH as [-> [n [Hn Hb]]]. split; [reflexivity|]. exists n.
           split; [right; assumption | assumption].
      * rewrite (projectDate_out_of_range _ _ _ H2) in H. subst r.
        split; [reflexivity|]. exists node. split; [left; reflexivity|].
        intros [_ X]. exact (H2 X).
    + rewrite (projectDate_out_of_range _ _ _ H1) in H. subst r.
      split; [reflexivity|]. exists node. split; [left; reflexivity|].
      intros [X _]. exact (H1 X).
Qed.

Lemma projectNodes_throws tz base pertNodes ranges :
  (exists n, In n pertNodes /\ ~ datesInRange base n) ->
  Calendar.projectNodes tz base pertNodes ranges = Throw RangeError.
Proof.
  intros [n [Hin Hn]].
  pose proof (projectNodes_result tz base pertNodes ranges _ eq_refl) as R.
  destruct (Calendar.projectNodes tz base pertNodes ranges) as [m|e].
  - exfalso. exact (Hn (R n Hin)).
  - destruct R as [-> _]. reflexivity.
Qed.

(** X10. With a start date that parses, [computeCalendarDates] throws a
    [RangeError] exactly when the start or the end of some node falls
    outside the dates the host represents, and never a [TypeError]; in
    every other case it returns the map. *)
Theorem calendar_out_of_range (tz : Z) (host : string -> option Z)
    (pertNodes : list PertNode) (projectStartDate : string) (base : Z) :
  Calendar.Date_of_string tz host (projectStartDate ++ "T00:00:00")%string = Some base ->
  (Calendar.computeCalendarDates tz host pertNodes projectStartDate = Throw RangeError <->
   exists n, In n pertNodes /\
     ~ (Calendar.in_range (base + Calendar.Math_round (earlyStart n) * Calendar.msPerDay) /\
        Calendar.in_range (base + Calendar.Math_round (earlyFinish n) * Calendar.msPerDay))) /\
  Calendar.computeCalendarDates tz host pertNodes projectStartDate <> Throw TypeError.
Proof.
  intros Hb. unfold Calendar.computeCalendarDates. rewrite Hb. split; [split|].
  - intros H. apply projectNodes_result in H. apply H.
  - intros H. now apply projectNodes_throws.
  - intros H. apply projectNodes_result in H. destruct H as [H _]. discriminate.
Qed.

Lemma calendar_out_of_range_witness :
  Calendar.Date_of_string 0 Calendar.strict_host ("2026-01-01" ++ "T00:00:00")%string
  = Some 1767225600000 /\
  (Calendar.computeCalendarDates 0 Calendar.strict_host
     [Calendar.sampleNode "A" 0 (100000000 # 1)] "2026-01-01" = Throw RangeError <->
   exists n, In n [Calendar.sampleNode "A" 0 (100000000 # 1)] /\
     ~ (Calendar.in_range (1767225600000 + Calendar.Math_round (earlyStart n) * Calendar.msPerDay) /\
        Calendar.in_range (1767225600000 + Calendar.Math_round (earlyFinish n) * Calendar.msPerDay))) /\
  Calendar.computeCalendarDates 0 Calendar.strict_host
     [Calendar.sampleNode "A" 0 (100000000 # 1)] "2026-01-01" <> Throw TypeError.
Proof.
  split; [vm_compute; reflexivity|].
  apply (calendar_out_of_range 0 Calendar.strict_host
           [Calendar.sampleNode "A" 0 (100000000 # 1)] "2026-01-01" 1767225600000).
  vm_compute. reflexivity.
Defined.
End CalendarLaw.
